(** * The health-check service of pkg/fx/health: a shallow embedding

    The Go source is the coordinator of the health package: [service],
    its [run] loop and the handlers [Register], [OverallHealth],
    [updateOverallHealth], [SubscribeForOverallHealthChanges] and
    [TriggerShutdown].  Values are modelled as the code has them:
    durations are 64-bit integers, the result store is a finite map keyed by
    check ID, the subscriber sets are finite sets of channels, and every [go]
    statement is recorded in the list of goroutines it starts. *)

From Stdlib Require Import ZArith Lia.
From stdpp Require Import gmap strings list fin_maps.

(** ** time.Duration and time.Time

    [time.Duration] is an [int64] count of nanoseconds; arithmetic on it wraps
    around.  [time.Time] is taken as an instant in nanoseconds and
    [Time.Add] as addition on instants. *)

Definition Duration := Z.


Definition int64_wrap (z : Z) : Z := ((z + 2 ^ 63) `mod` 2 ^ 64 - 2 ^ 63)%Z.


Definition Duration_mul (d : Duration) (k : Z) : Duration := int64_wrap (d * k).

Definition Time := Z.

Definition Time_Add (t : Time) (d : Duration) : Time := (t + d)%Z.

(** ** Status

    Modelled from the spec: the declaration of [Status] and of its constants
    is not among the sources.  The callers convert a [Status] with
    [uint8(h.Status)], so it is an unsigned 8-bit integer type; the spec
    orders the constants Green < Yellow < Red and makes Green the value of
    an engine without results, which is the zero value [var status Status]. *)

Definition Status := Z.

Definition Green : Status := 0%Z.
Definition Yellow : Status := 1%Z.
Definition Red : Status := 2%Z.

(** ** Options and checks *)

(** Modelled from the spec: the declarations of [CheckerOpts] and [Check]
    are not among the sources.  [Register] reads the fields [Timeout],
    [RunInterval] and [ID]; the other fields of [Check] are the ones the
    event logger of the application reads. *)

Module CheckerOpts.
Record t := mk { Timeout : Duration; RunInterval : Duration }.
End CheckerOpts.
Definition CheckerOpts := CheckerOpts.t.

Module Check.
Record t := mk {
  ID : string;
  Description : string;
  YellowImpact : string;
  RedImpact : string
}.
End Check.
Definition Check := Check.t.

(** ** Errors

    A Go [error] is nil or an error value.  The error values of the service
    are the four package errors, the three [fmt.Errorf] messages of
    [Register] (kept with their arguments instead of the formatted text),
    [errors.New] and whatever a check function returns; [go.uber.org/multierr]
    joins them into a [multiError], a flat list of errors. *)

(** Modelled from the spec: the declarations of [ErrTimeout],
    [ErrNilChecker], [ErrRunIntervalTooFrequent] and [ErrRunTimeoutTooHigh]
    are not among the sources; each is one error value, distinct from the
    others (the spec's timeout, nil-checker, too-frequent and too-high
    errors). *)
Inductive err : Type :=
  | ErrTimeout
  | ErrNilChecker
  | ErrRunIntervalTooFrequent
  | ErrRunTimeoutTooHigh
  | errors_New (text : string)
  | Errorf_health_check_failed (id : string) (status : Status)
  | Errorf_invalid_opts (id : string) (opts : CheckerOpts)
  | Errorf_already_registered (id : string).

Inductive error_value : Type :=
  | single (e : err)
  | multiError (errors : list err).

Definition error := option error_value.

(** [multierr.Errors]: the errors an error value is made of. *)
Definition Errors (e : error_value) : list err :=
  match e with
  | single a => [a]
  | multiError errors => errors
  end.

(** [multierr.Append]: nil on one side gives the other side; two errors give
    the [multiError] of the errors of both, the left ones first. *)
Definition Append (left right : error) : error :=
  match left, right with
  | None, _ => right
  | _, None => left
  | Some l, Some r => Some (multiError (Errors l ++ Errors r))
  end.

(** An error reports [a] when [a] is it or is one of the joined errors. *)
Definition reports (e : error) (a : err) : Prop :=
  match e with
  | None => False
  | Some v => a ∈ Errors v
  end.

(** ** Result *)

Module Result.
Record t := mk {
  ID : string;
  Status : Status;
  Err : error;
  Time : Time;
  Duration : Duration
}.
End Result.
Definition Result := Result.t.

(** ** OverallHealth

    The loop of [OverallHealth] over the results in the order [range] yields
    them: a Yellow result sets [status], a Red result returns at once, any
    other status is skipped. *)

Fixpoint OverallHealth_range (status : Status) (results : list Result) : Status :=
  match results with
  | [] => status
  | result :: rest =>
      if (Result.Status result =? Yellow)%Z then
        OverallHealth_range (Result.Status result) rest
      else if (Result.Status result =? Red)%Z then Red
      else OverallHealth_range status rest
  end.

(** The stored results, in the order of one [range] over the map. *)
Definition values (runResults : gmap string Result) : list Result :=
  (map_to_list runResults).*2.

(** [var status Status] starts at the zero value. *)
Definition OverallHealth_of (runResults : gmap string Result) : Status :=
  OverallHealth_range Green (values runResults).

(** The severity rule in the words of the spec: Red if any result is Red,
    else Yellow if any is Yellow, else Green. *)
Definition has_status (st : Status) (results : list Result) : bool :=
  existsb (λ r, (Result.Status r =? st)%Z) results.

Definition severity_rule (results : list Result) : Status :=
  if has_status Red results then Red
  else if has_status Yellow results then Yellow
  else Green.

(** ** Opts: the engine-wide settings

    Modelled from the spec: the declaration of [Opts] is not among the
    sources; these are the fields the service reads. *)

Module Opts.
Record t := mk {
  MaxCheckParallelism : Z;
  DefaultTimeout : Duration;
  DefaultRunInterval : Duration;
  MinRunInterval : Duration;
  MaxTimeout : Duration
}.
End Opts.
Definition Opts := Opts.t.

(** ** Checkers

    A raw check function [func() (Status, error)] is opaque code: the service
    only tests it against nil and calls it.  One run of it inside the
    goroutine of the wrapped checker is described by what the goroutine
    observes: [time.Now()] before the call, the two values returned and
    [time.Since(start)] after it. *)

Inductive CheckFunc : Type := func (code : positive).

Record check_run := {
  run_start : Time;
  run_status : Status;
  run_err : error;
  run_duration : Duration
}.

(** [healthCheckFailure], the closure of [WithTimeout] over [id]. *)
Definition healthCheckFailure (id : string) (status : Status) (err : error) : error :=
  if (status =? Green)%Z then None
  else Append (Some (single (Errorf_health_check_failed id status))) err.

(** A [Checker] is the closure returned by [WithTimeout]: it holds the
    captured [id], [check] and [timeout]. *)
Module Checker.
Record t := mk { id : string; check : CheckFunc; timeout : Duration }.
End Checker.
Definition Checker := Checker.t.

Definition WithTimeout (id : string) (check : CheckFunc) (timeout : Duration) : Checker :=
  Checker.mk id check timeout.

(** The Result the goroutine running the check puts on [reply]. *)
Definition check_goroutine (id : string) (r : check_run) : Result :=
  {| Result.ID := id;
     Result.Status := run_status r;
     Result.Err := healthCheckFailure id (run_status r) (run_err r);
     Result.Time := run_start r;
     Result.Duration := run_duration r |}.

(** The [select] of a checker invocation takes one of two cases: [<-timer]
    at the instant [now], while the check has not put anything on [reply] or
    has done so unnoticed ([late], left in the buffer of [reply], which
    nobody reads again), or [<-reply] with the finished run. *)
Inductive invocation : Type :=
  | case_timer (now : Time) (late : option check_run)
  | case_reply (r : check_run).

Definition Checker_select (c : Checker) (i : invocation) : Result :=
  match i with
  | case_timer now _ =>
      {| Result.ID := Checker.id c;
         Result.Status := Red;
         Result.Err := healthCheckFailure (Checker.id c) Red (Some (single ErrTimeout));
         Result.Time := Time_Add now (Duration_mul (Checker.timeout c) (-1));
         Result.Duration := Checker.timeout c |}
  | case_reply r => check_goroutine (Checker.id c) r
  end.


(** Modelled from the spec: the declaration of [RegisteredCheck] is not
    among the sources.  [Register] builds it from its three embedded fields
    and reads [ID] and [RunInterval] through them. *)
Module RegisteredCheck.
Record t := mk {
  Check : Check;
  CheckerOpts : CheckerOpts;
  Checker : Checker
}.
Definition ID (c : t) : string := Check.ID (Check c).
Definition Timeout (c : t) : Duration := CheckerOpts.Timeout (CheckerOpts c).
Definition RunInterval (c : t) : Duration := CheckerOpts.RunInterval (CheckerOpts c).
End RegisteredCheck.
Definition RegisteredCheck := RegisteredCheck.t.

(** ** Channels and goroutines

    A channel made by the coordinator is named by the number of channels made
    before it.  Each [go] statement of the service starts one of these
    goroutines; every send a goroutine makes is one case of a [select] whose
    other case is [<-s.stop]. *)

Definition chan := nat.

Inductive goroutine : Type :=
  | go_Schedule (id : string) (check : Checker) (interval : Duration)
  | go_send_RegisteredCheck (ch : chan) (check : RegisteredCheck)
  | go_send_Result (ch : chan) (result : Result)
  | go_send_Status (ch : chan) (status : Status)
  | go_report_Result (result : Result).

(** A checker invocation returns its Result and starts the goroutine that
    reports the same Result on [s.results]. *)
Definition Checker_call (c : Checker) (i : invocation) : Result * goroutine :=
  let result := Checker_select c i in
  (result, go_report_Result result).

(** ** The service

    The fields of [service] that [run] and its handlers read or write.
    [stop] is true once the channel is closed.  The request channels are the
    events of [run] below, and [runSemaphore] is touched by the body of
    [Schedule] only, which stays inside its goroutine.  [made], [buffered]
    and [goroutines] are the runtime's part: the channels made so far, the
    contents of the buffered Status channels, the goroutines started. *)

Module service.
Record t := mk {
  Opts : Opts;
  checks : list RegisteredCheck;
  stop : bool;
  subscriptionsForRegisteredChecks : gset chan;
  subscriptionsForCheckResults : gmap chan (Result → bool);
  subscriptionsForOverallHealthChanges : gset chan;
  overallHealth : Status;
  runResults : gmap string Result;
  made : nat;
  buffered : gmap chan (list Status);
  goroutines : list goroutine
}.

Definition set_checks (s : t) (v : list RegisteredCheck) : t :=
  mk (Opts s) v (stop s) (subscriptionsForRegisteredChecks s)
     (subscriptionsForCheckResults s) (subscriptionsForOverallHealthChanges s)
     (overallHealth s) (runResults s) (made s) (buffered s) (goroutines s).

Definition set_stop (s : t) (v : bool) : t :=
  mk (Opts s) (checks s) v (subscriptionsForRegisteredChecks s)
     (subscriptionsForCheckResults s) (subscriptionsForOverallHealthChanges s)
     (overallHealth s) (runResults s) (made s) (buffered s) (goroutines s).

Definition set_subscriptionsForRegisteredChecks (s : t) (v : gset chan) : t :=
  mk (Opts s) (checks s) (stop s) v
     (subscriptionsForCheckResults s) (subscriptionsForOverallHealthChanges s)
     (overallHealth s) (runResults s) (made s) (buffered s) (goroutines s).

Definition set_subscriptionsForCheckResults (s : t) (v : gmap chan (Result → bool)) : t :=
  mk (Opts s) (checks s) (stop s) (subscriptionsForRegisteredChecks s)
     v (subscriptionsForOverallHealthChanges s)
     (overallHealth s) (runResults s) (made s) (buffered s) (goroutines s).

Definition set_subscriptionsForOverallHealthChanges (s : t) (v : gset chan) : t :=
  mk (Opts s) (checks s) (stop s) (subscriptionsForRegisteredChecks s)
     (subscriptionsForCheckResults s) v
     (overallHealth s) (runResults s) (made s) (buffered s) (goroutines s).

Definition set_overallHealth (s : t) (v : Status) : t :=
  mk (Opts s) (checks s) (stop s) (subscriptionsForRegisteredChecks s)
     (subscriptionsForCheckResults s) (subscriptionsForOverallHealthChanges s)
     v (runResults s) (made s) (buffered s) (goroutines s).

Definition set_runResults (s : t) (v : gmap string Result) : t :=
  mk (Opts s) (checks s) (stop s) (subscriptionsForRegisteredChecks s)
     (subscriptionsForCheckResults s) (subscriptionsForOverallHealthChanges s)
     (overallHealth s) v (made s) (buffered s) (goroutines s).

Definition set_made (s : t) (v : nat) : t :=
  mk (Opts s) (checks s) (stop s) (subscriptionsForRegisteredChecks s)
     (subscriptionsForCheckResults s) (subscriptionsForOverallHealthChanges s)
     (overallHealth s) (runResults s) v (buffered s) (goroutines s).

Definition set_buffered (s : t) (v : gmap chan (list Status)) : t :=
  mk (Opts s) (checks s) (stop s) (subscriptionsForRegisteredChecks s)
     (subscriptionsForCheckResults s) (subscriptionsForOverallHealthChanges s)
     (overallHealth s) (runResults s) (made s) v (goroutines s).

(** [go f]: the goroutines started, the latest last. *)
Definition go (s : t) (gs : list goroutine) : t :=
  mk (Opts s) (checks s) (stop s) (subscriptionsForRegisteredChecks s)
     (subscriptionsForCheckResults s) (subscriptionsForOverallHealthChanges s)
     (overallHealth s) (runResults s) (made s) (buffered s) (goroutines s ++ gs).
End service.
Definition service := service.t.

(** [newService]: nothing registered, nothing stored, [stop] open and
    [overallHealth] at the zero value of [Status]. *)
Definition newService (opts : Opts) : service :=
  {| service.Opts := opts;
     service.checks := [];
     service.stop := false;
     service.subscriptionsForRegisteredChecks := ∅;
     service.subscriptionsForCheckResults := ∅;
     service.subscriptionsForOverallHealthChanges := ∅;
     service.overallHealth := 0%Z;
     service.runResults := ∅;
     service.made := 0;
     service.buffered := ∅;
     service.goroutines := [] |}.

(** [make(chan T)] and [make(chan T, 1)]: a channel no earlier [make] gave. *)
Definition make_chan (s : service) : chan * service :=
  (service.made s, service.set_made s (S (service.made s))).

(** ** Registration *)

Record registerRequest := {
  req_check : Check;
  req_opts : CheckerOpts;
  req_checker : option CheckFunc
}.

Definition ApplyDefaultOpts (s : service) (opts : CheckerOpts) : CheckerOpts :=
  let opts :=
    if (CheckerOpts.Timeout opts =? 0)%Z
    then CheckerOpts.mk (Opts.DefaultTimeout (service.Opts s)) (CheckerOpts.RunInterval opts)
    else opts in
  if (CheckerOpts.RunInterval opts =? 0)%Z
  then CheckerOpts.mk (CheckerOpts.Timeout opts) (Opts.DefaultRunInterval (service.Opts s))
  else opts.

Definition ValidateOpts (s : service) (opts : CheckerOpts) : error :=
  let err : error :=
    if (CheckerOpts.RunInterval opts <? Opts.MinRunInterval (service.Opts s))%Z
    then Some (single ErrRunIntervalTooFrequent)
    else None in
  if (CheckerOpts.Timeout opts >? Opts.MaxTimeout (service.Opts s))%Z
  then Append err (Some (single ErrRunTimeoutTooHigh))
  else err.

(** The method [RegisteredCheck(id)]: the first registered check with this
    ID, nil when there is none. *)
Definition service_RegisteredCheck (s : service) (id : string) : option RegisteredCheck :=
  find (λ c, String.eqb (RegisteredCheck.ID c) id) (service.checks s).

Definition SendRegisteredCheckToSubscribers (s : service) (check : RegisteredCheck) : service :=
  service.go s
    ((λ ch, go_send_RegisteredCheck ch check)
       <$> elements (service.subscriptionsForRegisteredChecks s)).

Definition Register (s : service) (req : registerRequest) : error * service :=
  let check := req_check req in
  match req_checker req with
  | None =>
      (Append (Some (single (errors_New (Check.ID check)))) (Some (single ErrNilChecker)), s)
  | Some checker =>
      let opts := ApplyDefaultOpts s (req_opts req) in
      match ValidateOpts s opts with
      | Some err =>
          (Append (Some (single (Errorf_invalid_opts (Check.ID check) opts))) (Some err), s)
      | None =>
          match service_RegisteredCheck s (Check.ID check) with
          | Some _ => (Some (single (Errorf_already_registered (Check.ID check))), s)
          | None =>
              let registeredCheck :=
                {| RegisteredCheck.Check := check;
                   RegisteredCheck.CheckerOpts := opts;
                   RegisteredCheck.Checker :=
                     WithTimeout (Check.ID check) checker (CheckerOpts.Timeout opts) |} in
              let s := service.set_checks s (service.checks s ++ [registeredCheck]) in
              let s :=
                service.go s
                  [go_Schedule (RegisteredCheck.ID registeredCheck)
                     (RegisteredCheck.Checker registeredCheck)
                     (RegisteredCheck.RunInterval registeredCheck)] in
              let s := SendRegisteredCheckToSubscribers s registeredCheck in
              (None, s)
          end
      end
  end.

(** ** Results and overall health *)

Definition OverallHealth (s : service) : Status :=
  OverallHealth_of (service.runResults s).

Definition updateOverallHealth (s : service) : service :=
  let previous := service.overallHealth s in
  let s := service.set_overallHealth s (OverallHealth s) in
  if (previous =? service.overallHealth s)%Z then s
  else
    service.go s
      ((λ ch, go_send_Status ch (service.overallHealth s))
         <$> elements (service.subscriptionsForOverallHealthChanges s)).

Definition publishResult (s : service) (result : Result) : service :=
  service.go s
    ((λ sub, go_send_Result sub.1 result)
       <$> filter (λ sub, sub.2 result = true)
             (map_to_list (service.subscriptionsForCheckResults s))).

(** The case [result := <-s.results] of [run]. *)
Definition on_result (s : service) (result : Result) : service :=
  let s := service.set_runResults s (<[Result.ID result := result]> (service.runResults s)) in
  let s := updateOverallHealth s in
  publishResult s result.

(** ** Snapshots and subscriptions

    What a handler puts on the reply channel of its request.  The error of a
    registration and the channel of an overall-health subscription are sent
    inside a [select] whose other case is [<-s.stop]; a nil error is not
    sent, the reply channel is closed instead. *)

Inductive reply : Type :=
  | reply_error (err : error)
  | reply_checks (checks : list RegisteredCheck)
  | reply_results (results : list Result)
  | reply_status (status : Status)
  | reply_chan (ch : chan)
  | offer_chan (ch : chan).

Definition SendCheckResults (s : service) (filter : option (Result → bool)) : list Result :=
  match filter with
  | None => values (service.runResults s)
  | Some f => List.filter f (values (service.runResults s))
  end.

Definition SendRegisteredChecks (s : service) : list RegisteredCheck := service.checks s.

Definition SubscribeForRegisteredChecks (s : service) : chan * service :=
  let '(ch, s) := make_chan s in
  (ch, service.set_subscriptionsForRegisteredChecks s
         ({[ch]} ∪ service.subscriptionsForRegisteredChecks s)).

Definition SubscribeForCheckResults (s : service) (filter : option (Result → bool))
  : chan * service :=
  let '(ch, s) := make_chan s in
  let f := match filter with Some f => f | None => λ _, true end in
  (ch, service.set_subscriptionsForCheckResults s
         (<[ch := f]> (service.subscriptionsForCheckResults s))).

(** [ch := make(chan Status, 1)], [ch <- s.overallHealth] into its buffer,
    then [ch] joins the subscribers and is offered on [reply]. *)
Definition SubscribeForOverallHealthChanges (s : service) : chan * service :=
  let '(ch, s) := make_chan s in
  let s := service.set_buffered s (<[ch := [service.overallHealth s]]> (service.buffered s)) in
  (ch, service.set_subscriptionsForOverallHealthChanges s
         ({[ch]} ∪ service.subscriptionsForOverallHealthChanges s)).

(** ** Shutdown

    [close] panics on a closed channel: [None].  [TriggerShutdown] closes
    [stop] in the [default] case only, which [select] takes when [<-s.stop]
    is not ready, that is while [stop] is open. *)

Definition close (closed : bool) : option bool :=
  if closed then None else Some true.

Definition TriggerShutdown (s : service) : option service :=
  if service.stop s then Some s
  else service.set_stop s <$> close (service.stop s).

(** ** The coordinator loop

    One iteration of [run] is the [select] case taken.  [<-s.stop] is ready
    once [stop] is closed; the other cases are ready when a request or a
    result is waiting. *)

Inductive event : Type :=
  | recv_stop
  | recv_register (req : registerRequest)
  | recv_results (result : Result)
  | recv_getRegisteredChecks
  | recv_getCheckResults (filter : option (Result → bool))
  | recv_subscribeForRegisteredChecks
  | recv_subscribeForCheckResults (filter : option (Result → bool))
  | recv_getOverallHealth
  | recv_subscribeForOverallHealthChanges.

Definition ready (s : service) (ev : event) : bool :=
  match ev with
  | recv_stop => service.stop s
  | _ => true
  end.

(** The body of a case other than [<-s.stop]: the new state and the reply. *)
Definition handle (s : service) (ev : event) : service * option reply :=
  match ev with
  | recv_stop => (s, None)
  | recv_register req =>
      let '(err, s) := Register s req in (s, Some (reply_error err))
  | recv_results result => (on_result s result, None)
  | recv_getRegisteredChecks => (s, Some (reply_checks (SendRegisteredChecks s)))
  | recv_getCheckResults filter => (s, Some (reply_results (SendCheckResults s filter)))
  | recv_subscribeForRegisteredChecks =>
      let '(ch, s) := SubscribeForRegisteredChecks s in (s, Some (reply_chan ch))
  | recv_subscribeForCheckResults filter =>
      let '(ch, s) := SubscribeForCheckResults s filter in (s, Some (reply_chan ch))
  | recv_getOverallHealth => (s, Some (reply_status (service.overallHealth s)))
  | recv_subscribeForOverallHealthChanges =>
      let '(ch, s) := SubscribeForOverallHealthChanges s in (s, Some (offer_chan ch))
  end.

(** The engine: the service, whether [run] is still looping, and the replies
    given so far. *)
Inductive phase : Type := Running | Stopped.

Record engine := {
  svc : service;
  loop : phase;
  replies : list reply
}.

Definition start (opts : Opts) : engine :=
  {| svc := newService opts; loop := Running; replies := [] |}.

(** What can happen to the engine: [run] takes a ready case of its [select],
    or some goroutine calls [TriggerShutdown]. *)
Inductive action : Type :=
  | select_case (ev : event)
  | call_TriggerShutdown.

(** [None]: the action cannot happen (the loop has returned, or the case is
    not ready) or it panics. *)
Definition act (e : engine) (a : action) : option engine :=
  match a with
  | call_TriggerShutdown =>
      s ← TriggerShutdown (svc e);
      Some {| svc := s; loop := loop e; replies := replies e |}
  | select_case ev =>
      match loop e with
      | Stopped => None
      | Running =>
          if ready (svc e) ev then
            match ev with
            | recv_stop => Some {| svc := svc e; loop := Stopped; replies := replies e |}
            | _ =>
                let '(s, r) := handle (svc e) ev in
                Some {| svc := s; loop := Running;
                        replies := replies e ++ option_list r |}
            end
          else None
      end
  end.

Fixpoint acts (e : engine) (l : list action) : option engine :=
  match l with
  | [] => Some e
  | a :: l => e' ← act e a; acts e' l
  end.

(** The states the engine can be in after [newService]. *)
Definition reachable (opts : Opts) (e : engine) : Prop :=
  ∃ l, acts (start opts) l = Some e.

(** ** What an iteration started

    The goroutines started between two states of the service, and the test
    for a goroutine that sends on an overall-health channel. *)

Definition started (s s' : service) : list goroutine :=
  drop (length (service.goroutines s)) (service.goroutines s').

Definition is_send_Status (g : goroutine) : bool :=
  match g with
  | go_send_Status _ _ => true
  | _ => false
  end.

(** The Status sends of [updateOverallHealth] for a new overall value. *)
Definition broadcast (s : service) (status : Status) : list goroutine :=
  (λ ch, go_send_Status ch status)
    <$> elements (service.subscriptionsForOverallHealthChanges s).

(** ** The invariant of the coordinator

    The published overall value is the one the store gives, and every channel
    the service holds was made by it. *)

Definition consistent (s : service) : Prop :=
  service.overallHealth s = OverallHealth s
  ∧ (∀ ch, ch ∈ service.subscriptionsForRegisteredChecks s → ch < service.made s)
  ∧ (∀ ch, is_Some (service.subscriptionsForCheckResults s !! ch) → ch < service.made s)
  ∧ (∀ ch, ch ∈ service.subscriptionsForOverallHealthChanges s → ch < service.made s)
  ∧ (∀ ch, is_Some (service.buffered s !! ch) → ch < service.made s).

(** The engine once [s] has replaced its service and [r] has been replied. *)
Definition continue (e : engine) (s : service) (r : option reply) : engine :=
  {| svc := s; loop := loop e; replies := replies e ++ option_list r |}.

(** ** Sample values

    A small engine used to run the definitions: durations in nanoseconds,
    two checks, and a store with one Yellow and one Red result. *)

Definition second : Duration := 1000000000%Z.

Definition sample_opts : Opts :=
  {| Opts.MaxCheckParallelism := 2;
     Opts.DefaultTimeout := (5 * second)%Z;
     Opts.DefaultRunInterval := (15 * second)%Z;
     Opts.MinRunInterval := second;
     Opts.MaxTimeout := (10 * second)%Z |}.

Definition sample_check (id : string) : Check :=
  {| Check.ID := id;
     Check.Description := "sample";
     Check.YellowImpact := "slow";
     Check.RedImpact := "unavailable" |}.

Definition sample_request (id : string) (timeout interval : Duration)
    (checker : option CheckFunc) : registerRequest :=
  {| req_check := sample_check id;
     req_opts := CheckerOpts.mk timeout interval;
     req_checker := checker |}.

Definition sample_result (id : string) (status : Status) : Result :=
  {| Result.ID := id;
     Result.Status := status;
     Result.Err := healthCheckFailure id status None;
     Result.Time := 0%Z;
     Result.Duration := 1%Z |}.

Definition sample_store : gmap string Result :=
  <["db" := sample_result "db" Yellow]> (<["cache" := sample_result "cache" Red]> ∅).

Definition sample_service : service :=
  service.set_overallHealth
    (service.set_runResults (newService sample_opts) sample_store) Red.

(** The service after the check "db" has been registered. *)
Definition sample_registered : service :=
  (Register (newService sample_opts) (sample_request "db" 0%Z 0%Z (Some (func 1)))).2.

Definition sample_checker : Checker := WithTimeout "db" (func 1) (5 * second)%Z.

Definition sample_run (status : Status) (err : error) : check_run :=
  {| run_start := 100%Z; run_status := status; run_err := err; run_duration := 7%Z |}.

(** The engine after the check "db" has been registered, and a longer run:
    "db" and "cache" are registered, a second request for "db" is refused,
    and a Result of each check is taken. *)
Definition sample_registered_engine : engine :=
  {| svc := sample_registered; loop := Running; replies := [reply_error None] |}.

Definition sample_actions : list action :=
  [select_case (recv_register (sample_request "db" 0%Z 0%Z (Some (func 1))));
   select_case
     (recv_register (sample_request "cache" (2 * second)%Z (3 * second)%Z (Some (func 2))));
   select_case (recv_register (sample_request "db" 0%Z 0%Z (Some (func 3))));
   select_case (recv_results (sample_result "db" Yellow));
   select_case (recv_results (sample_result "cache" Red))].

Definition sample_engine : engine :=
  default (start sample_opts) (acts (start sample_opts) sample_actions).



(** ** The registered-check table along the run

    What every check of the table satisfies once [Register] has let it in:
    its effective options are within the bounds of the engine, and its
    wrapped checker carries its ID and its effective timeout. *)

Definition IDs (s : service) : list string :=
  RegisteredCheck.ID <$> service.checks s.

Definition within_bounds (opts : Opts) (c : RegisteredCheck) : Prop :=
  (Opts.MinRunInterval opts ≤ RegisteredCheck.RunInterval c)%Z
  ∧ (RegisteredCheck.Timeout c ≤ Opts.MaxTimeout opts)%Z
  ∧ Checker.id (RegisteredCheck.Checker c) = RegisteredCheck.ID c
  ∧ Checker.timeout (RegisteredCheck.Checker c) = RegisteredCheck.Timeout c.

(** The engine settings are those of [newService], the table has no two
    checks with one ID and only checks within bounds, and each stored Result
    is kept under its own ID. *)
Definition well_formed (opts : Opts) (s : service) : Prop :=
  service.Opts s = opts
  ∧ NoDup (IDs s)
  ∧ Forall (within_bounds opts) (service.checks s)
  ∧ (∀ id r, service.runResults s !! id = Some r → Result.ID r = id).

(** The check [Register] appends for a request it accepts. *)
Definition registeredCheck_of (s : service) (req : registerRequest) (checker : CheckFunc)
  : RegisteredCheck :=
  let opts := ApplyDefaultOpts s (req_opts req) in
  {| RegisteredCheck.Check := req_check req;
     RegisteredCheck.CheckerOpts := opts;
     RegisteredCheck.Checker :=
       WithTimeout (Check.ID (req_check req)) checker (CheckerOpts.Timeout opts) |}.

(** ** The run semaphore

    [runSemaphore] is a channel of [struct{}] values with a buffer of
    [MaxCheckParallelism] places: what matters of it is how many values it
    holds.  A send blocks on a full buffer, a receive on an empty one
    ([None]).  [newService] sends [MaxCheckParallelism] values to it, the
    counter [i] running over [uint8]. *)

Record semaphore := { capacity : nat; tokens : nat }.

Definition sem_send (c : semaphore) : option semaphore :=
  if tokens c <? capacity c
  then Some {| capacity := capacity c; tokens := S (tokens c) |}
  else None.

Definition sem_recv (c : semaphore) : option semaphore :=
  match tokens c with
  | O => None
  | S n => Some {| capacity := capacity c; tokens := n |}
  end.

(** [for ; i < opts.MaxCheckParallelism; i++ { runSemaphore <- struct{}{} }],
    with [n] iterations left. *)
Fixpoint fill (n : nat) (c : semaphore) : option semaphore :=
  match n with
  | O => Some c
  | S n => c' ← sem_send c; fill n c'
  end.

Definition newSemaphore (opts : Opts) : option semaphore :=
  let n := Z.to_nat (Opts.MaxCheckParallelism opts) in
  fill n {| capacity := n; tokens := 0 |}.

(** The closure [run] of [Schedule] receives from the semaphore, runs the
    check and sends to the semaphore when it is done.  The pool is the
    semaphore and the checks whose [run] holds a value of it; an event is
    one scheduler entering or leaving [run]. *)
Record pool := { sem : semaphore; running : list string }.

Inductive run_event : Type :=
  | run_begin (id : string)
  | run_end (id : string).

Fixpoint remove_first (id : string) (l : list string) : list string :=
  match l with
  | [] => []
  | x :: l => if String.eqb x id then l else x :: remove_first id l
  end.

Definition pool_step (p : pool) (ev : run_event) : option pool :=
  match ev with
  | run_begin id =>
      c ← sem_recv (sem p); Some {| sem := c; running := id :: running p |}
  | run_end id =>
      if bool_decide (id ∈ running p)
      then c ← sem_send (sem p);
           Some {| sem := c; running := remove_first id (running p) |}
      else None
  end.

Fixpoint pool_steps (p : pool) (l : list run_event) : option pool :=
  match l with
  | [] => Some p
  | ev :: l => p' ← pool_step p ev; pool_steps p' l
  end.

Definition newPool (opts : Opts) : option pool :=
  c ← newSemaphore opts; Some {| sem := c; running := [] |}.

(** ** The readiness hook of the application

    [multierr.Combine]: the errors of all the non-nil arguments, as one
    error; nil when there is none, the argument itself when there is one. *)
Definition Combine (errs : list error) : error :=
  match omap id errs with
  | [] => None
  | [e] => Some e
  | es => Some (multiError (concat (Errors <$> es)))
  end.

(** The [OnStart] hook of [healthCheckReadiness] calls the checker of each
    registered check in turn; [calls] pairs each check with the case its
    [select] takes.  An error produced by [fmt.Errorf] without a wrapped
    error is the [errors.New] of the formatted text. *)
Fixpoint readiness_range (err : error) (calls : list (RegisteredCheck * invocation))
  : error :=
  match calls with
  | [] => err
  | (check, i) :: calls =>
      let result := (Checker_call (RegisteredCheck.Checker check) i).1 in
      if (Result.Status result =? Green)%Z then readiness_range err calls
      else
        readiness_range
          (Combine [err;
                    Some (single (errors_New
                                    (String.append "health check failed: "
                                       (RegisteredCheck.ID check))));
                    Result.Err result])
          calls
  end.

Definition healthCheckReadiness (calls : list (RegisteredCheck * invocation)) : error :=
  readiness_range None calls.

(** The errors an error is made of, none for nil. *)
Definition Errors_of (e : error) : list err :=
  match e with
  | None => []
  | Some v => Errors v
  end.

(** What a failed check adds to the error of the readiness hook. *)
Definition readiness_errors (c : RegisteredCheck * invocation) : list err :=
  errors_New (String.append "health check failed: " (RegisteredCheck.ID c.1))
  :: Errors_of (Result.Err (Checker_call (RegisteredCheck.Checker c.1) c.2).1).

(** Whether an action is the coordinator taking a Result from [s.results]. *)
Definition is_recv_results (a : action) : bool :=
  match a with
  | select_case (recv_results _) => true
  | _ => false
  end.

(** Whether an action is a call of [TriggerShutdown]. *)
Definition is_TriggerShutdown (a : action) : bool :=
  match a with
  | call_TriggerShutdown => true
  | select_case _ => false
  end.

(** ** Metrics (metrics.go)

    A gathered metric family is reached through a pointer, nil or not; the
    functions below only pass the pointers to [accept] and back, so the
    struct behind them is left open. *)

Fixpoint FindMetricFamily {MF : Type} (mfs : list (option MF))
    (accept : option MF → bool) : option MF :=
  match mfs with
  | [] => None
  | mf :: mfs => if accept mf then mf else FindMetricFamily mfs accept
  end.

Fixpoint FindMetricFamilies {MF : Type} (mfs : list (option MF))
    (accept : option MF → bool) : list (option MF) :=
  match mfs with
  | [] => []
  | mf :: mfs =>
      if accept mf then mf :: FindMetricFamilies mfs accept
      else FindMetricFamilies mfs accept
  end.

(** [PrometheusHTTPServerOpts]: [port] is a [uint], [errorHandling] a value
    of the enumeration of promhttp.  [SetEndpoint] trims its argument with
    [strings.TrimSpace] of the Go library, which it takes here as the
    function [TrimSpace]. *)
Module PrometheusHTTPServerOpts.
Record t := mk {
  port : N;
  readTimeout : Duration;
  writeTimeout : Duration;
  endpoint : string;
  errorHandling : Z
}.

Definition Port (opts : t) : N :=
  if (port opts =? 0)%N then 5050%N else port opts.

Definition SetPort (opts : t) (p : N) : t :=
  mk p (readTimeout opts) (writeTimeout opts) (endpoint opts) (errorHandling opts).

Definition ReadTimeout (opts : t) : Duration :=
  if (readTimeout opts =? 0)%Z then int64_wrap (1 * second) else readTimeout opts.

Definition SetReadTimeout (opts : t) (timeout : Duration) : t :=
  mk (port opts) timeout (writeTimeout opts) (endpoint opts) (errorHandling opts).

Definition WriteTimeout (opts : t) : Duration :=
  if (writeTimeout opts =? 0)%Z then int64_wrap (5 * second) else writeTimeout opts.

Definition SetWriteTimeout (opts : t) (timeout : Duration) : t :=
  mk (port opts) (readTimeout opts) timeout (endpoint opts) (errorHandling opts).

Definition Endpoint (opts : t) : string :=
  if String.eqb (endpoint opts) "" then "/metrics" else endpoint opts.

Definition SetEndpoint (TrimSpace : string → string) (opts : t) (e : string) : t :=
  mk (port opts) (readTimeout opts) (writeTimeout opts) (TrimSpace e) (errorHandling opts).

Definition ErrorHandling (opts : t) : Z := errorHandling opts.

Definition SetErrorHandling (opts : t) (h : Z) : t :=
  mk (port opts) (readTimeout opts) (writeTimeout opts) (endpoint opts) h.
End PrometheusHTTPServerOpts.

(** [promhttp.HTTPErrorOnError], the first value of its enumeration. *)
Definition HTTPErrorOnError : Z := 0%Z.

Definition NewPrometheusHTTPServerOpts : PrometheusHTTPServerOpts.t :=
  {| PrometheusHTTPServerOpts.port := 5050;
     PrometheusHTTPServerOpts.readTimeout := second;
     PrometheusHTTPServerOpts.writeTimeout := int64_wrap (5 * second);
     PrometheusHTTPServerOpts.endpoint := "/metrics";
     PrometheusHTTPServerOpts.errorHandling := HTTPErrorOnError |}.

(** * Properties *)

(** ** The severity rule *)

Lemma has_status_true (st : Status) (results : list Result) :
  has_status st results = true ↔ ∃ r, r ∈ results ∧ Result.Status r = st.
Proof.
  unfold has_status. rewrite existsb_exists. split.
  - intros (r & Hin & Heq). exists r. split; [by apply list_elem_of_In|].
    by apply Z.eqb_eq.
  - intros (r & Hin & Heq). exists r. split; [by apply list_elem_of_In|].
    by apply Z.eqb_eq.
Qed.

Lemma has_status_Permutation (st : Status) (l1 l2 : list Result) :
  l1 ≡ₚ l2 → has_status st l1 = has_status st l2.
Proof.
  intros Hp. apply eq_true_iff_eq. rewrite !has_status_true.
  split; intros (r & Hin & Heq); exists r; split; try done.
  - by rewrite <- Hp.
  - by rewrite Hp.
Qed.

Lemma OverallHealth_range_rule (results : list Result) (status : Status) :
  OverallHealth_range status results =
    if has_status Red results then Red
    else if has_status Yellow results then Yellow
    else status.
Proof.
  revert status. induction results as [|r rest IH]; intros status; [done|].
  cbn [OverallHealth_range has_status existsb].
  fold (has_status Red rest). fold (has_status Yellow rest).
  destruct (Z.eqb_spec (Result.Status r) Yellow) as [Hy|Hy].
  - rewrite IH, Hy. cbn. by destruct (has_status Red rest), (has_status Yellow rest).
  - destruct (Z.eqb_spec (Result.Status r) Red) as [Hr|Hr]; [done|].
    cbn. apply IH.
Qed.

Lemma OverallHealth_range_severity (results : list Result) :
  OverallHealth_range Green results = severity_rule results.
Proof. apply OverallHealth_range_rule. Qed.

Lemma elem_of_values (runResults : gmap string Result) (r : Result) :
  r ∈ values runResults ↔ ∃ id, runResults !! id = Some r.
Proof.
  unfold values. rewrite list_elem_of_fmap. split.
  - intros ([id r'] & -> & Hin). exists id. by apply elem_of_map_to_list.
  - intros (id & Hid). exists (id, r). split; [done|]. by apply elem_of_map_to_list.
Qed.

(** C1. Over every result store, [OverallHealth] is Red when some stored
    Result is Red, otherwise Yellow when some stored Result is Yellow,
    otherwise Green; it is Green for the empty store of a new service; and
    the loop gives the same value in whatever order [range] yields the
    stored results. *)
Theorem OverallHealth_severity (s : service) :
  let stored (st : Status) :=
    ∃ id r, service.runResults s !! id = Some r ∧ Result.Status r = st in
  (stored Red → OverallHealth s = Red)
  ∧ (¬ stored Red → stored Yellow → OverallHealth s = Yellow)
  ∧ (¬ stored Red → ¬ stored Yellow → OverallHealth s = Green)
  ∧ (service.runResults s = ∅ → OverallHealth s = Green)
  ∧ (∀ order : list Result,
       order ≡ₚ values (service.runResults s) →
       OverallHealth_range Green order = OverallHealth s).
Proof.
  intros stored.
  assert (Hst : ∀ st, has_status st (values (service.runResults s)) = true ↔ stored st).
  { intros st. rewrite has_status_true. unfold stored. split.
    - intros (r & Hin & Heq). apply elem_of_values in Hin as (id & Hid). eauto.
    - intros (id & r & Hid & Heq). exists r. split; [|done].
      apply elem_of_values. eauto. }
  unfold OverallHealth, OverallHealth_of.
  repeat split.
  - intros HR. rewrite OverallHealth_range_rule.
    apply Hst in HR. by rewrite HR.
  - intros HR HY. rewrite OverallHealth_range_rule.
    apply Hst in HY. rewrite HY.
    destruct (has_status Red _) eqn:E; [|done]. apply Hst in E. done.
  - intros HR HY. rewrite OverallHealth_range_rule.
    destruct (has_status Red _) eqn:E; [apply Hst in E; done|].
    destruct (has_status Yellow _) eqn:E'; [apply Hst in E'; done|]. done.
  - intros ->. done.
  - intros order Hp. rewrite !OverallHealth_range_rule.
    by rewrite (has_status_Permutation Red _ _ Hp), (has_status_Permutation Yellow _ _ Hp).
Qed.

Lemma OverallHealth_severity_witness :
  OverallHealth sample_service = Red
  ∧ OverallHealth (newService sample_opts) = Green
  ∧ OverallHealth_range Green [sample_result "cache" Red; sample_result "db" Yellow]
    = OverallHealth sample_service.
Proof.
  destruct (OverallHealth_severity sample_service) as (HR & _ & _ & _ & Hperm).
  destruct (OverallHealth_severity (newService sample_opts)) as (_ & _ & _ & HE & _).
  split; [|split].
  - apply HR. exists "cache", (sample_result "cache" Red). split; reflexivity.
  - apply HE. reflexivity.
  - apply Hperm. vm_compute. apply Permutation_swap || reflexivity.
Defined.

(** ** The wrapped checker *)

Lemma healthCheckFailure_nil (id : string) (status : Status) (err : error) :
  healthCheckFailure id status err = None ↔ status = Green.
Proof.
  unfold healthCheckFailure.
  destruct (Z.eqb_spec status Green) as [->|Hne]; [done|].
  split; [|done]. by destruct err.
Qed.

Lemma healthCheckFailure_not_Green (id : string) (status : Status) (err : error) :
  status ≠ Green →
  healthCheckFailure id status err =
    match err with
    | None => Some (single (Errorf_health_check_failed id status))
    | Some e => Some (multiError (Errorf_health_check_failed id status :: Errors e))
    end.
Proof.
  intros Hne. unfold healthCheckFailure.
  destruct (Z.eqb_spec status Green) as [->|_]; [done|]. by destruct err.
Qed.

(** C2. Whichever case the checker's [select] takes, timeout or completion,
    the Result has a nil Err exactly when its Status is Green; for a status
    other than Green the Err is the synthesized "health check failed" error,
    alone when the check returned a nil error and joined with the errors of
    the check otherwise. *)
Theorem Checker_Err_nil_iff_Green (c : Checker) (i : invocation) :
  let result := (Checker_call c i).1 in
  (Result.Err result = None ↔ Result.Status result = Green)
  ∧ (Result.Status result ≠ Green →
     reports (Result.Err result)
       (Errorf_health_check_failed (Checker.id c) (Result.Status result)))
  ∧ (∀ r, i = case_reply r → run_status r ≠ Green →
       Result.Err result =
         match run_err r with
         | None => Some (single (Errorf_health_check_failed (Checker.id c) (run_status r)))
         | Some e =>
             Some (multiError
                     (Errorf_health_check_failed (Checker.id c) (run_status r) :: Errors e))
         end).
Proof.
  cbn zeta. split; [|split].
  - destruct i as [now late|r]; cbn;
      [split; discriminate | apply healthCheckFailure_nil].
  - destruct i as [now late|r]; cbn; intros Hne.
    + apply list_elem_of_here.
    + rewrite (healthCheckFailure_not_Green _ _ _ Hne).
      destruct (run_err r); cbn; apply list_elem_of_here.
  - intros r -> Hne. cbn. by apply healthCheckFailure_not_Green.
Qed.

Lemma Checker_Err_nil_iff_Green_witness :
  Result.Err (Checker_call sample_checker (case_reply (sample_run Yellow None))).1
  = Some (single (Errorf_health_check_failed "db" Yellow))
  ∧ reports (Result.Err (Checker_call sample_checker (case_timer 0%Z None)).1)
      (Errorf_health_check_failed "db" Red).
Proof.
  destruct (Checker_Err_nil_iff_Green sample_checker (case_reply (sample_run Yellow None)))
    as (_ & _ & Hreply).
  destruct (Checker_Err_nil_iff_Green sample_checker (case_timer 0%Z None))
    as (_ & Htimer & _).
  split.
  - apply (Hreply (sample_run Yellow None)); [reflexivity | discriminate].
  - apply Htimer. discriminate.
Defined.





(** C10. A check that returns Green with an error yields a Result whose Err
    is nil: the error does not reach the caller, nor the Result reported to
    the coordinator, nor the result store, nor the result subscribers, which
    all get this one Result. *)
Theorem Green_error_dropped (c : Checker) (r : check_run) (s : service) :
  run_status r = Green →
  let result := (Checker_call c (case_reply r)).1 in
  Result.Status result = Green
  ∧ Result.Err result = None
  ∧ (Checker_call c (case_reply r)).2 = go_report_Result result
  ∧ service.runResults (on_result s result) !! Checker.id c = Some result
  ∧ (∀ ch result', go_send_Result ch result' ∈ started s (on_result s result) →
       result' = result).
Proof.
  intros HG. cbn zeta. cbn. unfold healthCheckFailure. rewrite HG. cbn.
  repeat split.
  - unfold on_result, publishResult, updateOverallHealth. cbn.
    case_match; cbn; apply lookup_insert_eq.
  - intros ch result'. unfold started, on_result, publishResult. cbn.
    unfold updateOverallHealth. cbn.
    destruct (_ =? _)%Z; cbn.
    + rewrite drop_app_length. rewrite list_elem_of_fmap.
      intros (sub & Heq & _). by inversion Heq.
    + rewrite <- app_assoc, drop_app_length. rewrite elem_of_app, !list_elem_of_fmap.
      intros [(x & Heq & _)|(sub & Heq & _)]; [discriminate|by inversion Heq].
Qed.

Lemma Green_error_dropped_witness :
  Result.Err
    (Checker_call sample_checker
       (case_reply (sample_run Green (Some (single (errors_New "ignored")))))).1
  = None.
Proof.
  destruct (Green_error_dropped sample_checker
              (sample_run Green (Some (single (errors_New "ignored"))))
              (newService sample_opts) eq_refl) as (_ & Herr & _).
  exact Herr.
Defined.

(** ** Registration *)

Lemma service_RegisteredCheck_Some (s : service) (id : string) :
  (∃ c, c ∈ service.checks s ∧ RegisteredCheck.ID c = id) →
  is_Some (service_RegisteredCheck s id).
Proof.
  intros (c & Hin & Hid). unfold service_RegisteredCheck.
  destruct (find _ _) eqn:E; [by eexists|].
  apply list_elem_of_In in Hin.
  pose proof (find_none _ _ E c Hin) as Hf. cbn in Hf.
  apply String.eqb_neq in Hf. done.
Qed.

Lemma service_RegisteredCheck_None (s : service) (id : string) :
  service_RegisteredCheck s id = None →
  ∀ c, c ∈ service.checks s → RegisteredCheck.ID c ≠ id.
Proof.
  intros E c Hin. apply list_elem_of_In in Hin.
  pose proof (find_none _ _ E c Hin) as Hf. cbn in Hf.
  by apply String.eqb_neq in Hf.
Qed.

Lemma ValidateOpts_cases (s : service) (opts : CheckerOpts) :
  ValidateOpts s opts =
    match (CheckerOpts.RunInterval opts <? Opts.MinRunInterval (service.Opts s))%Z,
          (CheckerOpts.Timeout opts >? Opts.MaxTimeout (service.Opts s))%Z with
    | true, true => Some (multiError [ErrRunIntervalTooFrequent; ErrRunTimeoutTooHigh])
    | true, false => Some (single ErrRunIntervalTooFrequent)
    | false, true => Some (single ErrRunTimeoutTooHigh)
    | false, false => None
    end.
Proof. unfold ValidateOpts. by destruct (_ <? _)%Z, (_ >? _)%Z. Qed.

(** C8. A request without a checker function is refused with the error that
    joins the check ID with [ErrNilChecker], and the service is left as it
    was: nothing is added to the table, no goroutine is started, and the
    options are neither defaulted nor validated. *)
Theorem Register_nil_checker (s : service) (req : registerRequest) :
  req_checker req = None →
  Register s req =
    (Some (multiError [errors_New (Check.ID (req_check req)); ErrNilChecker]), s)
  ∧ reports (Register s req).1 ErrNilChecker
  ∧ reports (Register s req).1 (errors_New (Check.ID (req_check req)))
  ∧ service.checks (Register s req).2 = service.checks s
  ∧ started s (Register s req).2 = [].
Proof.
  intros Hnil. unfold Register. rewrite Hnil. cbn. repeat split.
  - apply list_elem_of_further, list_elem_of_here.
  - apply list_elem_of_here.
  - unfold started. apply drop_all.
Qed.

Lemma Register_nil_checker_witness :
  Register (newService sample_opts) (sample_request "db" 0%Z 0%Z None) =
    (Some (multiError [errors_New "db"; ErrNilChecker]), newService sample_opts).
Proof.
  destruct (Register_nil_checker (newService sample_opts)
              (sample_request "db" 0%Z 0%Z None) eq_refl) as (H & _).
  exact H.
Defined.

(** C4, as stated, fails: a request whose ID is registered and whose checker
    is nil is refused with the nil-checker error, not with the
    already-registered error. *)
Lemma Register_duplicate_counterexample :
  (∃ c, c ∈ service.checks sample_registered ∧ RegisteredCheck.ID c = "db")
  ∧ (Register sample_registered (sample_request "db" 0%Z 0%Z None)).1
    = Some (multiError [errors_New "db"; ErrNilChecker])
  ∧ ¬ reports (Register sample_registered (sample_request "db" 0%Z 0%Z None)).1
        (Errorf_already_registered "db").
Proof.
  split; [|split].
  - eexists. split; [apply list_elem_of_here|reflexivity].
  - reflexivity.
  - cbn. rewrite !elem_of_cons, elem_of_nil. intros [H|[H|[]]]; discriminate H.
Qed.

(** C4, amended. A request whose ID is already in the table always fails and
    leaves the service as it was (the table does not grow, no checker is
    wrapped, no goroutine is started).  The error is that of the first test
    of [Register] the request fails: the nil-checker error when it has no
    checker, otherwise the invalid-options error when its defaulted options
    are out of bounds, and the already-registered error only when it has a
    checker and valid options. *)
Theorem Register_duplicate (s : service) (req : registerRequest) :
  (∃ c, c ∈ service.checks s ∧ RegisteredCheck.ID c = Check.ID (req_check req)) →
  (Register s req).1 ≠ None
  ∧ (Register s req).2 = s
  ∧ length (service.checks (Register s req).2) = length (service.checks s)
  ∧ started s (Register s req).2 = []
  ∧ (req_checker req ≠ None →
     ValidateOpts s (ApplyDefaultOpts s (req_opts req)) = None →
     (Register s req).1 = Some (single (Errorf_already_registered (Check.ID (req_check req)))))
  ∧ (req_checker req = None →
     (Register s req).1
     = Some (multiError [errors_New (Check.ID (req_check req)); ErrNilChecker]))
  ∧ (∀ err, req_checker req ≠ None →
       ValidateOpts s (ApplyDefaultOpts s (req_opts req)) = Some err →
       (Register s req).1
       = Some (multiError
                 (Errorf_invalid_opts (Check.ID (req_check req))
                    (ApplyDefaultOpts s (req_opts req))
                  :: Errors err))
       ∧ ¬ reports (Register s req).1 (Errorf_already_registered (Check.ID (req_check req)))
       ∧ (reports (Some err) ErrRunIntervalTooFrequent
          ∨ reports (Some err) ErrRunTimeoutTooHigh)).
Proof.
  intros Hdup. apply service_RegisteredCheck_Some in Hdup as [c Hc].
  assert (Hs : (Register s req).1 ≠ None ∧ (Register s req).2 = s).
  { unfold Register. destruct (req_checker req); [|done].
    destruct (ValidateOpts _ _); [done|]. by rewrite Hc. }
  destruct Hs as [Herr Hs]. rewrite Hs.
  split; [done|]. split; [done|]. split; [done|]. split; [apply drop_all|].
  split; [|split].
  - intros Hchecker Hvalid. unfold Register.
    destruct (req_checker req); [|done]. by rewrite Hvalid, Hc.
  - intros Hnil. unfold Register. by rewrite Hnil.
  - intros err Hchecker Hinvalid.
    assert (Hreg : (Register s req).1
                   = Some (multiError
                             (Errorf_invalid_opts (Check.ID (req_check req))
                                (ApplyDefaultOpts s (req_opts req))
                              :: Errors err))).
    { unfold Register. destruct (req_checker req); [|done]. by rewrite Hinvalid. }
    rewrite Hreg. split; [done|].
    rewrite ValidateOpts_cases in Hinvalid.
    destruct (_ <? _)%Z, (_ >? _)%Z; try discriminate Hinvalid;
      injection Hinvalid as <-; cbn; (split; [|]).
    + rewrite !elem_of_cons, elem_of_nil. intros [H|[H|[H|[]]]]; discriminate H.
    + left. apply list_elem_of_here.
    + rewrite !elem_of_cons, elem_of_nil. intros [H|[H|[]]]; discriminate H.
    + left. apply list_elem_of_here.
    + rewrite !elem_of_cons, elem_of_nil. intros [H|[H|[]]]; discriminate H.
    + right. apply list_elem_of_here.
Qed.

Lemma Register_duplicate_witness :
  (Register sample_registered (sample_request "db" 0%Z 0%Z (Some (func 2)))).1
  = Some (single (Errorf_already_registered "db"))
  ∧ (Register sample_registered (sample_request "db" 0%Z 1%Z (Some (func 2)))).1
    = Some (multiError
              [Errorf_invalid_opts "db" (CheckerOpts.mk (5 * second)%Z 1%Z);
               ErrRunIntervalTooFrequent]).
Proof.
  assert (Hdup : ∃ c, c ∈ service.checks sample_registered
                     ∧ RegisteredCheck.ID c = "db").
  { eexists. split; [apply list_elem_of_here|reflexivity]. }
  destruct (Register_duplicate sample_registered
              (sample_request "db" 0%Z 0%Z (Some (func 2))) Hdup)
    as (_ & _ & _ & _ & Hvalid & _).
  destruct (Register_duplicate sample_registered
              (sample_request "db" 0%Z 1%Z (Some (func 2))) Hdup)
    as (_ & _ & _ & _ & _ & _ & Hinvalid).
  split.
  - apply Hvalid; [discriminate|reflexivity].
  - destruct (Hinvalid (single ErrRunIntervalTooFrequent)) as [H _];
      [discriminate|reflexivity|exact H].
Defined.

(** C5, as stated, fails: a request without a checker whose run interval is
    below the minimum is refused with the nil-checker error, which does not
    report [ErrRunIntervalTooFrequent]; its options are never looked at. *)
Lemma Register_opts_counterexample :
  (CheckerOpts.RunInterval
     (ApplyDefaultOpts (newService sample_opts) (req_opts (sample_request "db" 0%Z 1%Z None)))
   < Opts.MinRunInterval (service.Opts (newService sample_opts)))%Z
  ∧ (Register (newService sample_opts) (sample_request "db" 0%Z 1%Z None)).1
    = Some (multiError [errors_New "db"; ErrNilChecker])
  ∧ ¬ reports (Register (newService sample_opts) (sample_request "db" 0%Z 1%Z None)).1
        ErrRunIntervalTooFrequent.
Proof.
  split; [|split].
  - reflexivity.
  - reflexivity.
  - cbn. rewrite !elem_of_cons, elem_of_nil. intros [H|[H|[]]]; discriminate H.
Qed.

(** C5, amended. For a request with a checker function, a zero Timeout or
    RunInterval is replaced by the engine default; then a RunInterval below
    the minimum makes the registration fail with an error that reports
    [ErrRunIntervalTooFrequent], a Timeout above the maximum with one that
    reports [ErrRunTimeoutTooHigh], and both together with the error that
    joins the two; the service is left as it was in each case. *)
Theorem Register_opts (s : service) (req : registerRequest) (checker : CheckFunc) :
  req_checker req = Some checker →
  let opts := ApplyDefaultOpts s (req_opts req) in
  let too_frequent :=
    (CheckerOpts.RunInterval opts < Opts.MinRunInterval (service.Opts s))%Z in
  let too_high := (CheckerOpts.Timeout opts > Opts.MaxTimeout (service.Opts s))%Z in
  CheckerOpts.Timeout opts =
    (if (CheckerOpts.Timeout (req_opts req) =? 0)%Z
     then Opts.DefaultTimeout (service.Opts s)
     else CheckerOpts.Timeout (req_opts req))
  ∧ CheckerOpts.RunInterval opts =
    (if (CheckerOpts.RunInterval (req_opts req) =? 0)%Z
     then Opts.DefaultRunInterval (service.Opts s)
     else CheckerOpts.RunInterval (req_opts req))
  ∧ (too_frequent →
     reports (Register s req).1 ErrRunIntervalTooFrequent ∧ (Register s req).2 = s)
  ∧ (too_high →
     reports (Register s req).1 ErrRunTimeoutTooHigh ∧ (Register s req).2 = s)
  ∧ (too_frequent → too_high →
     (Register s req).1 =
       Some (multiError [Errorf_invalid_opts (Check.ID (req_check req)) opts;
                         ErrRunIntervalTooFrequent; ErrRunTimeoutTooHigh]))
  ∧ (too_frequent ∨ too_high →
     service.checks (Register s req).2 = service.checks s
     ∧ started s (Register s req).2 = []).
Proof.
  intros Hc opts too_frequent too_high.
  assert (Hreg : Register s req =
            match ValidateOpts s opts with
            | Some err =>
                (Append (Some (single (Errorf_invalid_opts (Check.ID (req_check req)) opts)))
                   (Some err), s)
            | None => Register s req
            end).
  { unfold Register. rewrite Hc. fold opts. by destruct (ValidateOpts s opts). }
  rewrite ValidateOpts_cases in Hreg.
  split; [|split].
  { unfold opts, ApplyDefaultOpts. destruct (req_opts req) as [t i]. cbn.
    destruct (t =? 0)%Z; cbn; by destruct (_ =? 0)%Z. }
  { unfold opts, ApplyDefaultOpts. destruct (req_opts req) as [t i]. cbn.
    destruct (t =? 0)%Z; cbn; by destruct (i =? 0)%Z. }
  unfold too_frequent, too_high.
  destruct (Z.ltb_spec (CheckerOpts.RunInterval opts) (Opts.MinRunInterval (service.Opts s)))
    as [Hf|Hf];
  destruct (Z.gtb_spec (CheckerOpts.Timeout opts) (Opts.MaxTimeout (service.Opts s)))
    as [Hh|Hh]; rewrite ?Hreg; cbn.
  - repeat split; try done; try apply drop_all.
    + apply list_elem_of_further, list_elem_of_here.
    + do 2 apply list_elem_of_further. apply list_elem_of_here.
  - repeat split; try done; try lia; try apply drop_all.
    apply list_elem_of_further, list_elem_of_here.
  - repeat split; try done; try lia; try apply drop_all.
    apply list_elem_of_further, list_elem_of_here.
  - repeat split; intros; lia.
Qed.

Lemma Register_opts_witness :
  (Register (newService sample_opts)
     (sample_request "db" (11 * second)%Z 1%Z (Some (func 1)))).1
  = Some (multiError
            [Errorf_invalid_opts "db" (CheckerOpts.mk (11 * second)%Z 1%Z);
             ErrRunIntervalTooFrequent; ErrRunTimeoutTooHigh]).
Proof.
  destruct (Register_opts (newService sample_opts)
              (sample_request "db" (11 * second)%Z 1%Z (Some (func 1))) (func 1) eq_refl)
    as (_ & _ & _ & _ & H & _).
  apply H; reflexivity.
Defined.

(** ** Results and the overall value *)

Lemma started_on_result (s : service) (result : Result) :
  started s (on_result s result) =
    (if (service.overallHealth s
         =? OverallHealth_of (<[Result.ID result := result]> (service.runResults s)))%Z
     then []
     else broadcast s
            (OverallHealth_of (<[Result.ID result := result]> (service.runResults s))))
    ++ ((λ sub, go_send_Result sub.1 result)
          <$> filter (λ sub, sub.2 result = true)
                (map_to_list (service.subscriptionsForCheckResults s))).
Proof.
  unfold started, on_result, publishResult, updateOverallHealth, OverallHealth, broadcast.
  cbn. destruct (_ =? _)%Z; cbn.
  - by rewrite drop_app_length.
  - by rewrite <- app_assoc, drop_app_length.
Qed.

Lemma overallHealth_on_result (s : service) (result : Result) :
  service.overallHealth (on_result s result) =
    OverallHealth_of (<[Result.ID result := result]> (service.runResults s)).
Proof.
  unfold on_result, publishResult, updateOverallHealth, OverallHealth. cbn.
  by destruct (_ =? _)%Z.
Qed.

Lemma runResults_on_result (s : service) (result : Result) :
  service.runResults (on_result s result) =
    <[Result.ID result := result]> (service.runResults s).
Proof.
  unfold on_result, publishResult, updateOverallHealth. cbn. by destruct (_ =? _)%Z.
Qed.

Lemma subscriptions_on_result (s : service) (result : Result) :
  service.subscriptionsForOverallHealthChanges (on_result s result) =
    service.subscriptionsForOverallHealthChanges s.
Proof.
  unfold on_result, publishResult, updateOverallHealth. cbn. by destruct (_ =? _)%Z.
Qed.

(** C6. Processing an incoming Result maps its CheckID to it in the store,
    over any earlier Result of that ID and without touching the other IDs;
    the overall value is recomputed from the whole new store; and a Status
    is sent to the overall-health subscribers, each of them, exactly when
    the new overall value differs from the one published before. *)
Theorem on_result_store_and_broadcast (s : service) (result : Result) :
  let s' := on_result s result in
  handle s (recv_results result) = (s', None)
  ∧ service.runResults s' = <[Result.ID result := result]> (service.runResults s)
  ∧ service.runResults s' !! Result.ID result = Some result
  ∧ (∀ id, id ≠ Result.ID result →
       service.runResults s' !! id = service.runResults s !! id)
  ∧ service.overallHealth s' = OverallHealth s'
  ∧ (service.overallHealth s' = service.overallHealth s →
     ∀ g, g ∈ started s s' → is_send_Status g = false)
  ∧ (service.overallHealth s' ≠ service.overallHealth s →
     ∀ ch, ch ∈ service.subscriptionsForOverallHealthChanges s →
       go_send_Status ch (service.overallHealth s') ∈ started s s')
  ∧ (∀ ch status, go_send_Status ch status ∈ started s s' →
       status = service.overallHealth s'
       ∧ ch ∈ service.subscriptionsForOverallHealthChanges s).
Proof.
  intros s'. unfold s'.
  split; [done|]. split; [apply runResults_on_result|].
  split; [rewrite runResults_on_result; apply lookup_insert_eq|].
  split; [intros id Hid; rewrite runResults_on_result; by apply lookup_insert_ne|].
  split; [unfold OverallHealth; by rewrite overallHealth_on_result, runResults_on_result|].
  rewrite started_on_result, overallHealth_on_result.
  set (new := OverallHealth_of _).
  split; [|split].
  - intros Heq g. rewrite Heq, Z.eqb_refl. cbn.
    rewrite list_elem_of_fmap. by intros (sub & -> & _).
  - intros Hne ch Hch. destruct (Z.eqb_spec (service.overallHealth s) new) as [Heq|_].
    { by rewrite Heq in Hne. }
    apply elem_of_app. left. unfold broadcast. apply list_elem_of_fmap.
    exists ch. split; [done|]. by apply elem_of_elements.
  - intros ch status. rewrite elem_of_app.
    intros [Hin|Hin].
    + destruct (_ =? _)%Z; [by apply elem_of_nil in Hin|].
      unfold broadcast in Hin. apply list_elem_of_fmap in Hin as (ch' & Heq & Hin).
      inversion Heq; subst. split; [done|]. by apply elem_of_elements in Hin.
    + apply list_elem_of_fmap in Hin as (sub & Heq & _). discriminate.
Qed.

Lemma on_result_store_and_broadcast_witness :
  service.overallHealth (on_result (newService sample_opts) (sample_result "db" Yellow))
  = Yellow
  ∧ ∀ g, g ∈ started sample_service
               (on_result sample_service (sample_result "db" Yellow)) →
         is_send_Status g = false.
Proof.
  destruct (on_result_store_and_broadcast (newService sample_opts)
              (sample_result "db" Yellow)) as (_ & _ & _ & _ & Hnew & _).
  destruct (on_result_store_and_broadcast sample_service
              (sample_result "db" Yellow)) as (_ & _ & _ & _ & _ & Hsame & _).
  split.
  - rewrite Hnew. vm_compute. reflexivity.
  - apply Hsame. vm_compute. reflexivity.
Defined.

(** ** The invariant along the run of the engine *)

Lemma consistent_newService (opts : Opts) : consistent (newService opts).
Proof.
  unfold consistent, newService. cbn. split; [done|].
  repeat split; intros ch H.
  - by apply elem_of_empty in H.
  - rewrite lookup_empty in H. by destruct H.
  - by apply elem_of_empty in H.
  - rewrite lookup_empty in H. by destruct H.
Qed.

Lemma consistent_Register (s : service) (req : registerRequest) :
  consistent s → consistent (Register s req).2.
Proof.
  unfold Register. destruct (req_checker req); [|done].
  destruct (ValidateOpts _ _); [done|].
  destruct (service_RegisteredCheck _ _); [done|].
  by destruct s.
Qed.

Lemma consistent_on_result (s : service) (result : Result) :
  consistent s → consistent (on_result s result).
Proof.
  intros (_ & H). unfold consistent.
  split; [unfold OverallHealth; by rewrite overallHealth_on_result, runResults_on_result|].
  unfold on_result, publishResult, updateOverallHealth. cbn.
  by destruct (_ =? _)%Z.
Qed.

Lemma consistent_SubscribeForRegisteredChecks (s : service) :
  consistent s → consistent (SubscribeForRegisteredChecks s).2.
Proof.
  intros (H0 & H1 & H2 & H3 & H4). unfold consistent. cbn.
  split; [done|]. repeat split; intros ch H.
  - apply elem_of_union in H as [H|H]; [apply elem_of_singleton in H; lia|].
    apply H1 in H. lia.
  - apply H2 in H. lia.
  - apply H3 in H. lia.
  - apply H4 in H. lia.
Qed.

Lemma consistent_SubscribeForCheckResults (s : service) (f : option (Result → bool)) :
  consistent s → consistent (SubscribeForCheckResults s f).2.
Proof.
  intros (H0 & H1 & H2 & H3 & H4). unfold consistent. cbn.
  split; [done|]. repeat split; intros ch H.
  - apply H1 in H. lia.
  - destruct (decide (ch = service.made s)) as [->|Hne]; [lia|].
    rewrite lookup_insert_ne in H by done. apply H2 in H. lia.
  - apply H3 in H. lia.
  - apply H4 in H. lia.
Qed.

Lemma consistent_SubscribeForOverallHealthChanges (s : service) :
  consistent s → consistent (SubscribeForOverallHealthChanges s).2.
Proof.
  intros (H0 & H1 & H2 & H3 & H4). unfold consistent. cbn.
  split; [done|]. repeat split; intros ch H.
  - apply H1 in H. lia.
  - apply H2 in H. lia.
  - apply elem_of_union in H as [H|H]; [apply elem_of_singleton in H; lia|].
    apply H3 in H. lia.
  - destruct (decide (ch = service.made s)) as [->|Hne]; [lia|].
    rewrite lookup_insert_ne in H by done. apply H4 in H. lia.
Qed.

Lemma consistent_handle (s : service) (ev : event) :
  consistent s → consistent (handle s ev).1.
Proof.
  intros H. destruct ev; cbn; try done.
  - pose proof (consistent_Register s req H). by destruct (Register s req).
  - by apply consistent_on_result.
  - by apply consistent_SubscribeForRegisteredChecks.
  - by apply consistent_SubscribeForCheckResults.
  - by apply consistent_SubscribeForOverallHealthChanges.
Qed.

Lemma TriggerShutdown_set_stop (s : service) :
  TriggerShutdown s = Some (service.set_stop s true).
Proof. unfold TriggerShutdown. by destruct s as [? ? []]. Qed.

Lemma act_cases (e e' : engine) (a : action) :
  act e a = Some e' →
  (a = call_TriggerShutdown ∧ svc e' = service.set_stop (svc e) true ∧ loop e' = loop e)
  ∨ (a = select_case recv_stop ∧ loop e = Running ∧ service.stop (svc e) = true
     ∧ svc e' = svc e ∧ loop e' = Stopped)
  ∨ (∃ ev, a = select_case ev ∧ ev ≠ recv_stop ∧ loop e = Running
       ∧ svc e' = (handle (svc e) ev).1 ∧ loop e' = Running).
Proof.
  destruct a as [ev|]; cbn.
  - destruct (loop e) eqn:El; [|done].
    destruct (ready (svc e) ev) eqn:Er; [|done].
    destruct ev; [intros [= <-]; right; left; by cbn in *|..];
      (destruct (handle _ _) as [s r] eqn:Eh; intros [= <-];
       right; right; eexists; split; [reflexivity|]; split; [discriminate|];
       by rewrite Eh).
  - rewrite TriggerShutdown_set_stop. cbn. intros [= <-]. by left.
Qed.

Lemma consistent_act (e e' : engine) (a : action) :
  act e a = Some e' → consistent (svc e) → consistent (svc e').
Proof.
  intros Ha H. apply act_cases in Ha as [(_ & -> & _)|[(_ & _ & _ & -> & _)|(ev & _ & _ & _ & -> & _)]].
  - by destruct (svc e).
  - done.
  - by apply consistent_handle.
Qed.

Lemma consistent_acts (l : list action) (e e' : engine) :
  acts e l = Some e' → consistent (svc e) → consistent (svc e').
Proof.
  revert e. induction l as [|a l IH]; intros e; cbn.
  - by intros [= <-].
  - destruct (act e a) as [e1|] eqn:Ea; [|done]. cbn.
    intros Hl H. apply (IH e1 Hl). by apply (consistent_act e e1 a).
Qed.

Lemma reachable_consistent (opts : Opts) (e : engine) :
  reachable opts e → consistent (svc e).
Proof.
  intros [l Hl]. apply (consistent_acts l _ _ Hl). apply consistent_newService.
Qed.

(** The overall-health subscribers are never removed. *)
Lemma subscriptions_handle (s : service) (ev : event) :
  service.subscriptionsForOverallHealthChanges s
  ⊆ service.subscriptionsForOverallHealthChanges (handle s ev).1.
Proof.
  destruct ev; cbn -[on_result]; try done.
  - unfold Register. destruct (req_checker req); [|done].
    destruct (ValidateOpts _ _); [done|].
    by destruct (service_RegisteredCheck _ _).
  - by rewrite subscriptions_on_result.
  - apply union_subseteq_r.
Qed.

Lemma subscriptions_acts (l : list action) (e e' : engine) :
  acts e l = Some e' →
  service.subscriptionsForOverallHealthChanges (svc e)
  ⊆ service.subscriptionsForOverallHealthChanges (svc e').
Proof.
  revert e. induction l as [|a l IH]; intros e; cbn.
  - by intros [= <-].
  - destruct (act e a) as [e1|] eqn:Ea; [|done]. cbn. intros Hl.
    etrans; [|by apply IH].
    apply act_cases in Ea as [(_ & -> & _)|[(_ & _ & _ & -> & _)|(ev & _ & _ & _ & -> & _)]].
    + by destruct (svc e).
    + done.
    + apply subscriptions_handle.
Qed.

Lemma on_result_sends_change (s : service) (result : Result) (ch : chan) :
  ch ∈ service.subscriptionsForOverallHealthChanges s →
  service.overallHealth (on_result s result) ≠ service.overallHealth s →
  go_send_Status ch (service.overallHealth (on_result s result))
  ∈ started s (on_result s result).
Proof.
  intros Hch. rewrite started_on_result, overallHealth_on_result. intros Hne.
  destruct (Z.eqb_spec (service.overallHealth s)
              (OverallHealth_of (<[Result.ID result := result]> (service.runResults s))))
    as [Heq|_]; [by rewrite Heq in Hne|].
  apply elem_of_app. left. unfold broadcast. apply list_elem_of_fmap.
  exists ch. split; [done|]. by apply elem_of_elements.
Qed.

(** ** Subscribing to the overall value *)

(** C7. In every state the engine can reach, the handler of an
    overall-health subscription makes a channel the service did not hold
    before, puts the overall value of that moment, which is the one the
    store gives, into its buffer at once, without starting any goroutine or
    waiting for a Result, adds the channel to the overall-health subscribers
    and offers it as the reply; the channel stays subscribed whatever the
    engine does next, so each later change of the overall value is sent to
    it. *)
Theorem SubscribeForOverallHealthChanges_first_value (opts : Opts) (e : engine) :
  reachable opts e →
  let s := svc e in
  let ch := (SubscribeForOverallHealthChanges s).1 in
  let s' := (SubscribeForOverallHealthChanges s).2 in
  handle s recv_subscribeForOverallHealthChanges = (s', Some (offer_chan ch))
  ∧ ((ch ∉ service.subscriptionsForOverallHealthChanges s)
     ∧ (ch ∉ service.subscriptionsForRegisteredChecks s)
     ∧ service.subscriptionsForCheckResults s !! ch = None
     ∧ service.buffered s !! ch = None)
  ∧ service.buffered s' !! ch = Some [service.overallHealth s]
  ∧ service.overallHealth s = OverallHealth s
  ∧ started s s' = []
  ∧ service.subscriptionsForOverallHealthChanges s'
    = {[ch]} ∪ service.subscriptionsForOverallHealthChanges s
  ∧ (∀ l e', acts (continue e s' (Some (offer_chan ch))) l = Some e' →
       ch ∈ service.subscriptionsForOverallHealthChanges (svc e')
       ∧ ∀ result,
           service.overallHealth (on_result (svc e') result)
           ≠ service.overallHealth (svc e') →
           go_send_Status ch (service.overallHealth (on_result (svc e') result))
           ∈ started (svc e') (on_result (svc e') result)).
Proof.
  intros Hreach s ch s'.
  pose proof (reachable_consistent opts e Hreach) as (H0 & H1 & H2 & H3 & H4).
  fold s in H0, H1, H2, H3, H4.
  assert (Hch : ch = service.made s) by done.
  split; [done|]. split; [|split; [|split; [|split; [|split]]]].
  - rewrite Hch. repeat split.
    + intros H. apply H3 in H. lia.
    + intros H. apply H1 in H. lia.
    + destruct (service.subscriptionsForCheckResults s !! service.made s) eqn:E; [|done].
      assert (service.made s < service.made s) by (apply H2; by rewrite E). lia.
    + destruct (service.buffered s !! service.made s) eqn:E; [|done].
      assert (service.made s < service.made s) by (apply H4; by rewrite E). lia.
  - unfold s', ch. cbn. apply lookup_insert_eq.
  - done.
  - unfold started, s'. cbn. apply drop_all.
  - done.
  - intros l e' Hl.
    assert (Hin : ch ∈ service.subscriptionsForOverallHealthChanges (svc e')).
    { apply (subscriptions_acts l _ _ Hl). unfold continue, s', ch. cbn.
      apply elem_of_union_l. by apply elem_of_singleton. }
    split; [done|]. intros result. by apply on_result_sends_change.
Qed.

Lemma SubscribeForOverallHealthChanges_first_value_witness :
  service.buffered (SubscribeForOverallHealthChanges (newService sample_opts)).2 !! 0
  = Some [Green].
Proof.
  assert (Hreach : reachable sample_opts (start sample_opts)) by (by exists []).
  destruct (SubscribeForOverallHealthChanges_first_value sample_opts (start sample_opts) Hreach)
    as (_ & _ & H & _).
  exact H.
Defined.

(** ** Shutdown *)

Lemma stop_handle (s : service) (ev : event) :
  service.stop (handle s ev).1 = service.stop s.
Proof.
  destruct ev; cbn -[on_result]; try done.
  - unfold Register. destruct (req_checker req); [|done].
    destruct (ValidateOpts _ _); [done|].
    by destruct (service_RegisteredCheck _ _).
  - unfold on_result, publishResult, updateOverallHealth. cbn. by destruct (_ =? _)%Z.
Qed.

Lemma Stopped_acts (l : list action) (e e' : engine) :
  loop e = Stopped → acts e l = Some e' → loop e' = Stopped.
Proof.
  revert e. induction l as [|a l IH]; intros e Hs; cbn.
  - by intros [= <-].
  - destruct (act e a) as [e1|] eqn:Ea; [|done]. cbn. apply IH.
    apply act_cases in Ea as [(_ & _ & ->)|[(_ & Hr & _)|(ev & _ & _ & Hr & _)]];
      [done|congruence..].
Qed.

(** C9. [TriggerShutdown] never panics and closes [stop]; a second call
    changes nothing, so calling it twice is calling it once.  Once [stop] is
    closed no step of the engine opens it again; the stop case of the loop
    is ready exactly when [stop] is closed, and taking it makes [run]
    return; after that no [select] is taken any more, and the loop stays
    returned whatever follows. *)
Theorem TriggerShutdown_idempotent (s : service) :
  (∃ s1, TriggerShutdown s = Some s1
         ∧ service.stop s1 = true
         ∧ TriggerShutdown s1 = Some s1
         ∧ (service.stop s = true → s1 = s))
  ∧ (∀ e a e', act e a = Some e' →
       service.stop (svc e) = true → service.stop (svc e') = true)
  ∧ (∀ e, loop e = Running →
       act e (select_case recv_stop)
       = if service.stop (svc e)
         then Some {| svc := svc e; loop := Stopped; replies := replies e |}
         else None)
  ∧ (∀ e ev, loop e = Stopped → act e (select_case ev) = None)
  ∧ (∀ e l e', loop e = Stopped → acts e l = Some e' → loop e' = Stopped).
Proof.
  split; [|split; [|split; [|split]]].
  - exists (service.set_stop s true). split; [apply TriggerShutdown_set_stop|].
    split; [by destruct s|]. split; [by destruct s|].
    destruct s as [? ? []]; cbn; [done|discriminate].
  - intros e a e' Ha Hstop.
    apply act_cases in Ha as [(_ & -> & _)|[(_ & _ & _ & -> & _)|(ev & _ & _ & _ & -> & _)]].
    + by destruct (svc e).
    + done.
    + by rewrite stop_handle.
  - intros e Hrun. cbn. rewrite Hrun. cbn. by destruct (service.stop (svc e)).
  - intros e ev Hs. cbn. by rewrite Hs.
  - intros e l e' Hs. by apply Stopped_acts.
Qed.

Lemma TriggerShutdown_idempotent_witness :
  act (start sample_opts) (select_case recv_stop) = None
  ∧ ∃ s1, TriggerShutdown (newService sample_opts) = Some s1
          ∧ TriggerShutdown s1 = Some s1.
Proof.
  destruct (TriggerShutdown_idempotent (newService sample_opts))
    as ((s1 & H1 & _ & H2 & _) & _ & Hstop & _).
  split.
  - exact (Hstop (start sample_opts) eq_refl).
  - by exists s1.
Defined.

(** ** Registration: when it succeeds, and what the table keeps *)

Lemma service_RegisteredCheck_None_iff (s : service) (id : string) :
  service_RegisteredCheck s id = None ↔ id ∉ IDs s.
Proof.
  split.
  - intros E Hin. unfold IDs in Hin. apply list_elem_of_fmap in Hin as (c & -> & Hc).
    by apply (service_RegisteredCheck_None s _ E c Hc).
  - intros Hnin. destruct (service_RegisteredCheck s id) as [c|] eqn:E; [|done].
    destruct Hnin. apply find_some in E as [Hin Heq].
    apply String.eqb_eq in Heq. subst id. unfold IDs.
    apply list_elem_of_fmap. exists c. split; [done|]. by apply list_elem_of_In.
Qed.

Lemma ValidateOpts_None (s : service) (opts : CheckerOpts) :
  ValidateOpts s opts = None ↔
  (Opts.MinRunInterval (service.Opts s) ≤ CheckerOpts.RunInterval opts)%Z
  ∧ (CheckerOpts.Timeout opts ≤ Opts.MaxTimeout (service.Opts s))%Z.
Proof.
  rewrite ValidateOpts_cases.
  destruct (Z.ltb_spec (CheckerOpts.RunInterval opts) (Opts.MinRunInterval (service.Opts s)));
  destruct (Z.gtb_spec (CheckerOpts.Timeout opts) (Opts.MaxTimeout (service.Opts s)));
    split; try done; try lia.
Qed.

(** The two ways [Register] ends: the service untouched and an error, or
    the accepted check appended, scheduled and sent to the subscribers. *)
Lemma Register_cases (s : service) (req : registerRequest) :
  ((Register s req).1 ≠ None ∧ (Register s req).2 = s
   ∧ (req_checker req = None
      ∨ ValidateOpts s (ApplyDefaultOpts s (req_opts req)) ≠ None
      ∨ service_RegisteredCheck s (Check.ID (req_check req)) ≠ None))
  ∨ (∃ checker,
       req_checker req = Some checker
       ∧ ValidateOpts s (ApplyDefaultOpts s (req_opts req)) = None
       ∧ service_RegisteredCheck s (Check.ID (req_check req)) = None
       ∧ (Register s req).1 = None
       ∧ (Register s req).2 =
           SendRegisteredCheckToSubscribers
             (service.go
                (service.set_checks s (service.checks s ++ [registeredCheck_of s req checker]))
                [go_Schedule (Check.ID (req_check req))
                   (RegisteredCheck.Checker (registeredCheck_of s req checker))
                   (RegisteredCheck.RunInterval (registeredCheck_of s req checker))])
             (registeredCheck_of s req checker)).
Proof.
  unfold Register.
  destruct (req_checker req) as [checker|]; [|left; by eauto].
  destruct (ValidateOpts _ _) eqn:Ev; [left; by eauto|].
  destruct (service_RegisteredCheck _ _) eqn:Ef; [left; by eauto 6|].
  right. exists checker. by repeat split.
Qed.

Lemma checks_Register_accepted (s : service) (req : registerRequest) (checker : CheckFunc) :
  let rc := registeredCheck_of s req checker in
  let s' :=
    SendRegisteredCheckToSubscribers
      (service.go (service.set_checks s (service.checks s ++ [rc]))
         [go_Schedule (Check.ID (req_check req)) (RegisteredCheck.Checker rc)
            (RegisteredCheck.RunInterval rc)]) rc in
  service.checks s' = service.checks s ++ [rc]
  ∧ service.Opts s' = service.Opts s
  ∧ service.runResults s' = service.runResults s
  ∧ service.stop s' = service.stop s
  ∧ service.subscriptionsForRegisteredChecks s' = service.subscriptionsForRegisteredChecks s
  ∧ service.subscriptionsForCheckResults s' = service.subscriptionsForCheckResults s
  ∧ started s s' =
      go_Schedule (Check.ID (req_check req)) (RegisteredCheck.Checker rc)
        (RegisteredCheck.RunInterval rc)
      :: ((λ ch, go_send_RegisteredCheck ch rc)
            <$> elements (service.subscriptionsForRegisteredChecks s)).
Proof.
  cbn zeta. unfold started, SendRegisteredCheckToSubscribers. cbn.
  repeat split. by rewrite <- app_assoc, drop_app_length.
Qed.

(** X1. [Register] returns nil exactly when the request has a checker
    function, its defaulted options are within the two bounds and its ID is
    not in the table; then the table grows by the one check built from the
    request and its defaulted options, a scheduler is started for it and it
    is sent to each registration subscriber, and nothing else is started;
    on an error the service is left as it was. *)
Theorem Register_accepts_iff (s : service) (req : registerRequest) :
  let opts := ApplyDefaultOpts s (req_opts req) in
  ((Register s req).1 = None ↔
     is_Some (req_checker req)
     ∧ (Opts.MinRunInterval (service.Opts s) ≤ CheckerOpts.RunInterval opts)%Z
     ∧ (CheckerOpts.Timeout opts ≤ Opts.MaxTimeout (service.Opts s))%Z
     ∧ Check.ID (req_check req) ∉ IDs s)
  ∧ (∀ checker, req_checker req = Some checker → (Register s req).1 = None →
       service.checks (Register s req).2
       = service.checks s ++ [registeredCheck_of s req checker]
       ∧ started s (Register s req).2 =
           go_Schedule (Check.ID (req_check req))
             (WithTimeout (Check.ID (req_check req)) checker (CheckerOpts.Timeout opts))
             (CheckerOpts.RunInterval opts)
           :: ((λ ch, go_send_RegisteredCheck ch (registeredCheck_of s req checker))
                 <$> elements (service.subscriptionsForRegisteredChecks s)))
  ∧ ((Register s req).1 ≠ None → (Register s req).2 = s).
Proof.
  intros opts.
  destruct (Register_cases s req)
    as [(Herr & Hs & Hwhy)|(checker & Hc & Hv & Hf & Herr & Hs)].
  - split; [|split]; [|done..]. split; [done|].
    intros (Hc & Hmin & Hmax & Hid). destruct Hwhy as [Hn|[Hn|Hn]].
    + rewrite Hn in Hc. by destruct Hc.
    + destruct Hn. by apply ValidateOpts_None.
    + destruct Hn. by apply service_RegisteredCheck_None_iff.
  - split; [|split]; [| |done].
    + split; [|done]. intros _. apply ValidateOpts_None in Hv as [Hmin Hmax].
      split; [by rewrite Hc|]. split; [done|]. split; [done|].
      by apply service_RegisteredCheck_None_iff.
    + intros checker' Hc' _. rewrite Hc in Hc'. injection Hc' as <-.
      rewrite Hs.
      destruct (checks_Register_accepted s req checker) as (H1 & _ & _ & _ & _ & _ & H2).
      by split.
Qed.

Lemma Register_accepts_iff_witness :
  service.checks
    (Register (newService sample_opts) (sample_request "db" 0%Z 0%Z (Some (func 1)))).2
  = [registeredCheck_of (newService sample_opts)
       (sample_request "db" 0%Z 0%Z (Some (func 1))) (func 1)].
Proof.
  destruct (Register_accepts_iff (newService sample_opts)
              (sample_request "db" 0%Z 0%Z (Some (func 1)))) as (_ & H & _).
  destruct (H (func 1) eq_refl eq_refl) as [Hchecks _].
  exact Hchecks.
Defined.

Lemma within_bounds_registeredCheck_of (s : service) (req : registerRequest)
    (checker : CheckFunc) :
  ValidateOpts s (ApplyDefaultOpts s (req_opts req)) = None →
  within_bounds (service.Opts s) (registeredCheck_of s req checker).
Proof.
  intros Hv. apply ValidateOpts_None in Hv as [Hmin Hmax].
  by repeat split.
Qed.

Lemma well_formed_newService (opts : Opts) : well_formed opts (newService opts).
Proof.
  repeat split; cbn.
  - apply NoDup_nil_2.
  - apply Forall_nil_2.
  - intros id r H. by rewrite lookup_empty in H.
Qed.

Lemma well_formed_Register (opts : Opts) (s : service) (req : registerRequest) :
  well_formed opts s → well_formed opts (Register s req).2.
Proof.
  intros (Ho & Hnd & Hb & Hk).
  destruct (Register_cases s req)
    as [(_ & -> & _)|(checker & Hc & Hv & Hf & _ & ->)]; [done|].
  destruct (checks_Register_accepted s req checker) as (H1 & H2 & H3 & _).
  cbn zeta in H1, H2, H3.
  unfold well_formed, IDs. rewrite H1, H2, H3, fmap_app.
  split; [done|]. split; [|split; [|done]].
  - apply NoDup_app. split; [done|]. split; [|apply NoDup_singleton].
    intros id Hin Hin'. apply list_elem_of_singleton in Hin'. subst id.
    by apply service_RegisteredCheck_None_iff in Hf.
  - apply Forall_app. split; [done|]. apply Forall_singleton.
    rewrite <- Ho. by apply within_bounds_registeredCheck_of.
Qed.

Lemma well_formed_on_result (opts : Opts) (s : service) (result : Result) :
  well_formed opts s → well_formed opts (on_result s result).
Proof.
  intros (Ho & Hnd & Hb & Hk).
  assert (Hsame : service.Opts (on_result s result) = service.Opts s
                  ∧ service.checks (on_result s result) = service.checks s).
  { unfold on_result, publishResult, updateOverallHealth. cbn. by destruct (_ =? _)%Z. }
  destruct Hsame as [HO HC].
  unfold well_formed, IDs. rewrite HO, HC, runResults_on_result.
  repeat split; try done.
  intros id r. destruct (decide (Result.ID result = id)) as [<-|Hne].
  - rewrite lookup_insert_eq. by intros [= <-].
  - rewrite lookup_insert_ne by done. apply Hk.
Qed.

Lemma well_formed_handle (opts : Opts) (s : service) (ev : event) :
  well_formed opts s → well_formed opts (handle s ev).1.
Proof.
  intros H. destruct ev; cbn -[on_result]; try done.
  - pose proof (well_formed_Register opts s req H). by destruct (Register s req).
  - by apply well_formed_on_result.
Qed.

Lemma well_formed_acts (opts : Opts) (l : list action) (e e' : engine) :
  acts e l = Some e' → well_formed opts (svc e) → well_formed opts (svc e').
Proof.
  revert e. induction l as [|a l IH]; intros e; cbn.
  - by intros [= <-].
  - destruct (act e a) as [e1|] eqn:Ea; [|done]. cbn.
    intros Hl H. apply (IH e1 Hl).
    apply act_cases in Ea as [(_ & -> & _)|[(_ & _ & _ & -> & _)|(ev & _ & _ & _ & -> & _)]].
    + by destruct (svc e).
    + done.
    + by apply well_formed_handle.
Qed.

Lemma reachable_well_formed (opts : Opts) (e : engine) :
  reachable opts e → well_formed opts (svc e).
Proof.
  intros [l Hl]. apply (well_formed_acts opts l _ _ Hl). apply well_formed_newService.
Qed.

Lemma reachable_sample_registered :
  reachable sample_opts
    {| svc := sample_registered; loop := Running; replies := [reply_error None] |}.
Proof.
  exists [select_case (recv_register (sample_request "db" 0%Z 0%Z (Some (func 1))))].
  reflexivity.
Qed.

Lemma acts_sample_engine : acts (start sample_opts) sample_actions = Some sample_engine.
Proof. by vm_compute. Qed.

Lemma reachable_sample_engine : reachable sample_opts sample_engine.
Proof. exists sample_actions. apply acts_sample_engine. Qed.

Lemma NoDup_IDs_lookup (s : service) (i j : nat) (c1 c2 : RegisteredCheck) :
  NoDup (IDs s) →
  service.checks s !! i = Some c1 →
  service.checks s !! j = Some c2 →
  RegisteredCheck.ID c1 = RegisteredCheck.ID c2 → i = j.
Proof.
  intros Hnd Hi Hj Heq.
  apply (NoDup_lookup (IDs s) i j (RegisteredCheck.ID c1)); [done|..];
    unfold IDs; rewrite list_lookup_fmap; unfold RegisteredCheck in *.
  - by rewrite Hi.
  - rewrite Hj. cbn. by rewrite Heq.
Qed.

(** X2. In every state the engine reaches, no two checks of the table have
    the same ID, whatever was requested: the IDs of the registered checks
    are pairwise distinct. *)
Theorem registered_IDs_unique (opts : Opts) (e : engine) :
  reachable opts e →
  NoDup (IDs (svc e))
  ∧ ∀ i j c1 c2,
      service.checks (svc e) !! i = Some c1 →
      service.checks (svc e) !! j = Some c2 →
      RegisteredCheck.ID c1 = RegisteredCheck.ID c2 → i = j.
Proof.
  intros Hr. destruct (reachable_well_formed opts e Hr) as (_ & Hnd & _).
  split; [done|]. intros i j c1 c2. by apply NoDup_IDs_lookup.
Qed.

Lemma registered_IDs_unique_witness :
  IDs (svc sample_engine) = ["db"; "cache"]
  ∧ replies sample_engine
    = [reply_error None; reply_error None;
       reply_error (Some (single (Errorf_already_registered "db")))]
  ∧ NoDup (IDs (svc sample_engine)).
Proof.
  destruct (registered_IDs_unique sample_opts _ reachable_sample_engine) as [H _].
  split; [by vm_compute|]. split; [by vm_compute|]. exact H.
Defined.

(** X3. In every state the engine reaches, each registered check runs no
    more often than the minimum interval of the engine and has a timeout no
    higher than its maximum, the engine settings being those given to
    [newService]; and its wrapped checker reports under the ID of the
    check and times out after the timeout of the check. *)
Theorem registered_checks_within_bounds (opts : Opts) (e : engine) (c : RegisteredCheck) :
  reachable opts e →
  c ∈ service.checks (svc e) →
  service.Opts (svc e) = opts
  ∧ (Opts.MinRunInterval opts ≤ RegisteredCheck.RunInterval c)%Z
  ∧ (RegisteredCheck.Timeout c ≤ Opts.MaxTimeout opts)%Z
  ∧ (∀ i, Result.ID (Checker_call (RegisteredCheck.Checker c) i).1 = RegisteredCheck.ID c)
  ∧ (∀ now late,
       Result.Duration (Checker_call (RegisteredCheck.Checker c) (case_timer now late)).1
       = RegisteredCheck.Timeout c).
Proof.
  intros Hr Hin. destruct (reachable_well_formed opts e Hr) as (Ho & _ & Hb & _).
  rewrite Forall_forall in Hb. destruct (Hb c Hin) as (Hmin & Hmax & Hid & Ht).
  repeat split; try done.
  intros [now late|r]; cbn; exact Hid.
Qed.

Lemma registered_checks_within_bounds_witness :
  (second ≤ RegisteredCheck.RunInterval
              (registeredCheck_of (newService sample_opts)
                 (sample_request "db" 0%Z 0%Z (Some (func 1))) (func 1)))%Z.
Proof.
  assert (Hin : registeredCheck_of (newService sample_opts)
                  (sample_request "db" 0%Z 0%Z (Some (func 1))) (func 1)
                ∈ service.checks sample_registered) by apply list_elem_of_here.
  destruct (registered_checks_within_bounds sample_opts _ _ reachable_sample_registered Hin)
    as (_ & H & _).
  exact H.
Defined.

(** X4. In every state the engine reaches, looking a check up by ID finds
    the registered check with that ID, the only one there is, and finds
    nothing exactly when no registered check has the ID. *)
Theorem service_RegisteredCheck_lookup (opts : Opts) (e : engine) (id : string) :
  reachable opts e →
  (∀ c, service_RegisteredCheck (svc e) id = Some c ↔
          c ∈ service.checks (svc e) ∧ RegisteredCheck.ID c = id)
  ∧ (service_RegisteredCheck (svc e) id = None ↔ id ∉ IDs (svc e)).
Proof.
  intros Hr. split; [|apply service_RegisteredCheck_None_iff].
  destruct (reachable_well_formed opts e Hr) as (_ & Hnd & _).
  pose proof (λ i j c1 c2, NoDup_IDs_lookup (svc e) i j c1 c2 Hnd) as Hu.
  intros c. split.
  - intros E. apply find_some in E as [Hin Heq]. apply String.eqb_eq in Heq.
    split; [by apply list_elem_of_In|done].
  - intros [Hin Hid].
    destruct (service_RegisteredCheck_Some (svc e) id) as [c' Hc']; [by eauto|].
    rewrite Hc'. f_equal.
    pose proof Hc' as E. apply find_some in E as [Hin' Heq]. apply String.eqb_eq in Heq.
    apply list_elem_of_In in Hin'.
    apply list_elem_of_lookup in Hin as [i Hi]. apply list_elem_of_lookup in Hin' as [j Hj].
    assert (j = i) as -> by (apply (Hu j i c' c Hj Hi); congruence).
    congruence.
Qed.

Lemma service_RegisteredCheck_lookup_witness :
  service_RegisteredCheck sample_registered "db"
  = Some (registeredCheck_of (newService sample_opts)
            (sample_request "db" 0%Z 0%Z (Some (func 1))) (func 1)).
Proof.
  destruct (service_RegisteredCheck_lookup sample_opts _ "db" reachable_sample_registered)
    as [H _].
  apply H. split; [apply list_elem_of_here|reflexivity].
Defined.

Lemma checks_handle_prefix (s : service) (ev : event) :
  service.checks s `prefix_of` service.checks (handle s ev).1.
Proof.
  destruct ev; cbn -[on_result]; try done.
  - destruct (Register_cases s req) as [(_ & Hs & _)|(checker & _ & _ & _ & _ & Hs)].
    + destruct (Register s req). cbn in Hs. by subst.
    + destruct (Register s req). cbn in Hs. subst. cbn. by apply prefix_app_r.
  - unfold on_result, publishResult, updateOverallHealth. cbn. by destruct (_ =? _)%Z.
Qed.

(** X5. The table is append-only: whatever the engine does, the checks
    registered before are still in the table afterwards, unchanged and at
    the same places, so the snapshot of the registered checks lists them in
    the order of their registration. *)
Theorem checks_append_only (e e' : engine) (l : list action) :
  acts e l = Some e' →
  service.checks (svc e) `prefix_of` service.checks (svc e')
  ∧ (∀ i c, service.checks (svc e) !! i = Some c → service.checks (svc e') !! i = Some c)
  ∧ (loop e' = Running →
     ∃ e'', act e' (select_case recv_getRegisteredChecks) = Some e''
            ∧ ∃ checks, last (replies e'') = Some (reply_checks checks)
                        ∧ service.checks (svc e) `prefix_of` checks).
Proof.
  intros Hl.
  assert (Hp : service.checks (svc e) `prefix_of` service.checks (svc e')).
  { revert e Hl. induction l as [|a l IH]; intros e; cbn.
    - by intros [= <-].
    - destruct (act e a) as [e1|] eqn:Ea; [|done]. cbn. intros Hl.
      etrans; [|by apply IH].
      apply act_cases in Ea as [(_ & -> & _)|[(_ & _ & _ & -> & _)|(ev & _ & _ & _ & -> & _)]].
      + by destruct (svc e).
      + done.
      + apply checks_handle_prefix. }
  split; [done|]. split.
  - intros i c Hi. by apply (prefix_lookup_Some _ _ _ _ Hi).
  - intros Hrun. cbn. rewrite Hrun. cbn. eexists. split; [done|].
    cbn. exists (service.checks (svc e')). split; [|done].
    by rewrite last_snoc.
Qed.

Lemma checks_append_only_witness :
  ∃ e', acts sample_registered_engine
          [select_case
             (recv_register
                (sample_request "cache" (2 * second)%Z (3 * second)%Z (Some (func 2))))]
        = Some e'
        ∧ length (service.checks (svc e')) = 2
        ∧ service.checks (svc e') !! 0
          = Some (registeredCheck_of (newService sample_opts)
                    (sample_request "db" 0%Z 0%Z (Some (func 1))) (func 1)).
Proof.
  destruct (acts sample_registered_engine
              [select_case
                 (recv_register
                    (sample_request "cache" (2 * second)%Z (3 * second)%Z (Some (func 2))))])
    as [e'|] eqn:E; [|by vm_compute in E].
  exists e'. split; [done|].
  destruct (checks_append_only sample_registered_engine e' _ E) as (_ & Hkeep & _).
  split.
  - vm_compute in E. by injection E as <-.
  - apply Hkeep. reflexivity.
Defined.

(** ** Shutdown comes from [TriggerShutdown] alone *)

Lemma stop_acts (l : list action) (e e' : engine) :
  acts e l = Some e' →
  service.stop (svc e') = service.stop (svc e) || existsb is_TriggerShutdown l.
Proof.
  revert e. induction l as [|a l IH]; intros e; cbn.
  - intros [= <-]. by rewrite orb_false_r.
  - destruct (act e a) as [e1|] eqn:Ea; [|done]. cbn. intros Hl.
    rewrite (IH e1 Hl).
    apply act_cases in Ea as [(-> & -> & _)|[(-> & _ & _ & -> & _)|(ev & -> & _ & _ & -> & _)]].
    + assert (service.stop (service.set_stop (svc e) true) = true) as -> by (by destruct (svc e)).
      cbn. by rewrite orb_true_r.
    + done.
    + by rewrite stop_handle.
Qed.

Lemma existsb_is_TriggerShutdown (l : list action) :
  existsb is_TriggerShutdown l = true ↔ call_TriggerShutdown ∈ l.
Proof.
  rewrite existsb_exists. split.
  - intros ([ev|] & Hin & Hx); [done|]. by apply list_elem_of_In.
  - intros Hin. exists call_TriggerShutdown. split; [by apply list_elem_of_In|done].
Qed.

Lemma Stopped_stop (l : list action) (e e' : engine) :
  acts e l = Some e' → loop e = Running → loop e' = Stopped →
  service.stop (svc e') = true.
Proof.
  revert e. induction l as [|a l IH]; intros e; cbn.
  - intros [= <-]. congruence.
  - destruct (act e a) as [e1|] eqn:Ea; [|done]. cbn. intros Hl Hrun Hst.
    pose proof (stop_acts l e1 e' Hl) as Hs.
    apply act_cases in Ea as [(_ & _ & Hloop)|[(_ & _ & Hstop & Hsvc & _)|(ev & _ & _ & _ & _ & Hloop)]].
    + apply (IH e1 Hl); [congruence|done].
    + rewrite Hs, Hsvc, Hstop. done.
    + by apply (IH e1 Hl).
Qed.

(** X6. Only [TriggerShutdown] closes [stop]: after any run of the engine
    from [newService], [stop] is closed exactly when [TriggerShutdown] was
    called during it, no case of the coordinator closes it; and the loop has
    returned only if [stop] is closed, so only after such a call. *)
Theorem stop_only_by_TriggerShutdown (opts : Opts) (l : list action) (e : engine) :
  acts (start opts) l = Some e →
  (service.stop (svc e) = true ↔ call_TriggerShutdown ∈ l)
  ∧ (loop e = Stopped → call_TriggerShutdown ∈ l ∧ select_case recv_stop ∈ l).
Proof.
  intros Hl. pose proof (stop_acts l _ _ Hl) as Hs. cbn in Hs.
  assert (Hiff : service.stop (svc e) = true ↔ call_TriggerShutdown ∈ l).
  { rewrite Hs. apply existsb_is_TriggerShutdown. }
  split; [done|]. intros Hst. split.
  - apply Hiff. by apply (Stopped_stop l _ _ Hl).
  - clear Hs Hiff. assert (Hrun : loop (start opts) = Running) by done.
    revert Hl Hrun. generalize (start opts). induction l as [|a l IH]; intros e0; cbn.
    + intros [= <-]. congruence.
    + destruct (act e0 a) as [e1|] eqn:Ea; [|done]. cbn. intros Hl Hrun.
      apply act_cases in Ea as [(-> & _ & Hloop)|[(-> & _)|(ev & -> & _ & _ & _ & Hloop)]].
      * apply list_elem_of_further. apply (IH e1 Hl). congruence.
      * apply list_elem_of_here.
      * apply list_elem_of_further. by apply (IH e1 Hl).
Qed.

Lemma stop_only_by_TriggerShutdown_witness :
  call_TriggerShutdown ∈ [call_TriggerShutdown; select_case recv_stop]
  ∧ select_case recv_stop ∈ [call_TriggerShutdown; select_case recv_stop].
Proof.
  destruct (acts (start sample_opts) [call_TriggerShutdown; select_case recv_stop])
    as [e|] eqn:E; [|discriminate E].
  destruct (stop_only_by_TriggerShutdown sample_opts _ e E) as [_ H].
  apply H. by inversion E.
Defined.

(** ** Defaults *)

Lemma default_twice (a d : Z) :
  (if ((if (a =? 0)%Z then d else a) =? 0)%Z then d else if (a =? 0)%Z then d else a)
  = if (a =? 0)%Z then d else a.
Proof.
  destruct (Z.eqb_spec a 0) as [->|Ha].
  - by destruct (Z.eqb_spec d 0).
  - by destruct (Z.eqb_spec a 0).
Qed.

Lemma ApplyDefaultOpts_fields (s : service) (opts : CheckerOpts) :
  ApplyDefaultOpts s opts =
    CheckerOpts.mk
      (if (CheckerOpts.Timeout opts =? 0)%Z
       then Opts.DefaultTimeout (service.Opts s) else CheckerOpts.Timeout opts)
      (if (CheckerOpts.RunInterval opts =? 0)%Z
       then Opts.DefaultRunInterval (service.Opts s) else CheckerOpts.RunInterval opts).
Proof.
  destruct opts as [t i]. unfold ApplyDefaultOpts. cbn.
  destruct (t =? 0)%Z; cbn; by destruct (i =? 0)%Z.
Qed.

(** X7. Defaulting the options twice is defaulting them once, options
    without a zero field are left as they are, and when the engine defaults
    are not zero no defaulted option is zero. *)
Theorem ApplyDefaultOpts_idempotent (s : service) (opts : CheckerOpts) :
  ApplyDefaultOpts s (ApplyDefaultOpts s opts) = ApplyDefaultOpts s opts
  ∧ (CheckerOpts.Timeout opts ≠ 0%Z → CheckerOpts.RunInterval opts ≠ 0%Z →
     ApplyDefaultOpts s opts = opts)
  ∧ (Opts.DefaultTimeout (service.Opts s) ≠ 0%Z →
     CheckerOpts.Timeout (ApplyDefaultOpts s opts) ≠ 0%Z)
  ∧ (Opts.DefaultRunInterval (service.Opts s) ≠ 0%Z →
     CheckerOpts.RunInterval (ApplyDefaultOpts s opts) ≠ 0%Z).
Proof.
  rewrite (ApplyDefaultOpts_fields s (ApplyDefaultOpts s opts)).
  rewrite !ApplyDefaultOpts_fields. cbn. rewrite !default_twice.
  destruct opts as [t i]. cbn.
  split; [done|]. split; [|split].
  - intros Ht Hi. by destruct (Z.eqb_spec t 0), (Z.eqb_spec i 0).
  - intros Hd. by destruct (Z.eqb_spec t 0).
  - intros Hd. by destruct (Z.eqb_spec i 0).
Qed.

Lemma ApplyDefaultOpts_idempotent_witness :
  ApplyDefaultOpts (newService sample_opts) (CheckerOpts.mk (2 * second)%Z (3 * second)%Z)
  = CheckerOpts.mk (2 * second)%Z (3 * second)%Z.
Proof.
  destruct (ApplyDefaultOpts_idempotent (newService sample_opts)
              (CheckerOpts.mk (2 * second)%Z (3 * second)%Z)) as (_ & H & _).
  apply H; discriminate.
Defined.

(** ** The result store and its snapshot *)

Lemma elem_of_List_filter {A} (f : A → bool) (l : list A) (x : A) :
  x ∈ List.filter f l ↔ x ∈ l ∧ f x = true.
Proof. rewrite !list_elem_of_In. apply filter_In. Qed.

Lemma length_List_filter {A} (f : A → bool) (l : list A) :
  length (List.filter f l) ≤ length l.
Proof. induction l as [|x l IH]; cbn; [done|]. destruct (f x); cbn; lia. Qed.

Lemma List_filter_sublist {A} (f : A → bool) (l : list A) :
  List.filter f l `sublist_of` l.
Proof.
  induction l as [|x l IH]; cbn; [done|].
  destruct (f x); [by apply sublist_skip|by apply sublist_cons].
Qed.

(** X8. The snapshot of the check results holds exactly the stored Results
    that the filter accepts, all of them without a filter: one per stored
    ID then, never more than the store holds, and none for an empty
    store. *)
Theorem SendCheckResults_snapshot (s : service) (filter : option (Result → bool)) :
  (∀ r, r ∈ SendCheckResults s filter ↔
          (∃ id, service.runResults s !! id = Some r)
          ∧ match filter with Some f => f r = true | None => True end)
  ∧ length (SendCheckResults s None) = size (service.runResults s)
  ∧ length (SendCheckResults s filter) ≤ size (service.runResults s)
  ∧ (service.runResults s = ∅ → SendCheckResults s filter = []).
Proof.
  assert (Hlen : length (values (service.runResults s)) = size (service.runResults s)).
  { unfold values. by rewrite length_fmap, length_map_to_list. }
  split; [|split; [|split]].
  - intros r. destruct filter as [f|]; cbn.
    + by rewrite elem_of_List_filter, elem_of_values.
    + rewrite elem_of_values. split; [by intros ?|by intros [? _]].
  - done.
  - destruct filter as [f|]; cbn; [|lia].
    etrans; [apply length_List_filter|lia].
  - intros He. unfold SendCheckResults, values. rewrite He, map_to_list_empty.
    by destruct filter.
Qed.

Lemma SendCheckResults_snapshot_witness :
  SendCheckResults (newService sample_opts) (Some (λ _, true)) = [].
Proof.
  destruct (SendCheckResults_snapshot (newService sample_opts) (Some (λ _, true)))
    as (_ & _ & _ & H).
  apply H. reflexivity.
Defined.

Lemma keyed_list_IDs (l : list (string * Result)) :
  (∀ p, p ∈ l → Result.ID p.2 = p.1) → Result.ID <$> l.*2 = l.*1.
Proof.
  induction l as [|[id r] l IH]; intros H; [done|]. cbn.
  pose proof (H (id, r) (list_elem_of_here _ _)) as Hid. cbn in Hid.
  f_equal; [done|].
  apply IH. intros q Hq. apply H. by apply list_elem_of_further.
Qed.

Lemma keyed_values_IDs (m : gmap string Result) :
  (∀ id r, m !! id = Some r → Result.ID r = id) →
  Result.ID <$> values m = (map_to_list m).*1.
Proof.
  intros Hk. unfold values. apply keyed_list_IDs.
  intros [id r] Hin. apply elem_of_map_to_list in Hin. by apply Hk.
Qed.

(** X9. In every state the engine reaches, each stored Result is kept under
    its own check ID, so a snapshot of the check results, filtered or not,
    holds at most one Result for a check ID, and it is the Result the store
    has for that ID. *)
Theorem SendCheckResults_one_per_ID (opts : Opts) (e : engine)
    (filter : option (Result → bool)) :
  reachable opts e →
  NoDup (Result.ID <$> SendCheckResults (svc e) filter)
  ∧ (∀ r, r ∈ SendCheckResults (svc e) filter →
          service.runResults (svc e) !! Result.ID r = Some r).
Proof.
  intros Hr. destruct (reachable_well_formed opts e Hr) as (_ & _ & _ & Hk).
  assert (Hnd : NoDup (Result.ID <$> values (service.runResults (svc e)))).
  { rewrite (keyed_values_IDs _ Hk). apply NoDup_fst_map_to_list. }
  split.
  - destruct filter as [f|]; cbn; [|done].
    eapply sublist_NoDup; [exact Hnd|apply fmap_sublist, List_filter_sublist].
  - intros r Hin.
    assert (Hv : r ∈ values (service.runResults (svc e))).
    { destruct filter as [f|]; cbn in Hin; [|done].
      by apply elem_of_List_filter in Hin as [Hin _]. }
    apply elem_of_values in Hv as [id Hid]. by rewrite (Hk id r Hid).
Qed.

Lemma SendCheckResults_one_per_ID_witness :
  length (SendCheckResults (svc sample_engine) None) = 2
  ∧ NoDup (Result.ID <$> SendCheckResults (svc sample_engine) None)
  ∧ NoDup (Result.ID
             <$> SendCheckResults (svc sample_engine)
                   (Some (λ r, (Result.Status r =? Red)%Z))).
Proof.
  destruct (SendCheckResults_one_per_ID sample_opts _ None reachable_sample_engine)
    as [Hall _].
  destruct (SendCheckResults_one_per_ID sample_opts _
              (Some (λ r, (Result.Status r =? Red)%Z)) reachable_sample_engine)
    as [Hred _].
  split; [by vm_compute|]. by split.
Defined.

(** X10. No history is kept: a second Result for a check ID replaces the
    first, in the store and in the overall value, as if the first had never
    arrived; Results for different IDs can arrive in either order; and the
    IDs with a stored Result are those before and the ID of the Result. *)
Theorem results_latest_wins (s : service) (r1 r2 : Result) :
  (Result.ID r1 = Result.ID r2 →
   service.runResults (on_result (on_result s r1) r2) = service.runResults (on_result s r2)
   ∧ service.overallHealth (on_result (on_result s r1) r2)
     = service.overallHealth (on_result s r2))
  ∧ (Result.ID r1 ≠ Result.ID r2 →
     service.runResults (on_result (on_result s r1) r2)
     = service.runResults (on_result (on_result s r2) r1)
     ∧ service.overallHealth (on_result (on_result s r1) r2)
       = service.overallHealth (on_result (on_result s r2) r1))
  ∧ dom (service.runResults (on_result s r1))
    = {[Result.ID r1]} ∪ dom (service.runResults s).
Proof.
  rewrite !overallHealth_on_result, !runResults_on_result.
  split; [|split].
  - intros ->. by rewrite insert_insert_eq.
  - intros Hne. by rewrite insert_insert_ne.
  - apply dom_insert_L.
Qed.

Lemma results_latest_wins_witness :
  service.runResults
    (on_result (on_result (newService sample_opts) (sample_result "db" Red))
       (sample_result "db" Green))
  = service.runResults (on_result (newService sample_opts) (sample_result "db" Green)).
Proof.
  destruct (results_latest_wins (newService sample_opts)
              (sample_result "db" Red) (sample_result "db" Green)) as (H & _).
  apply H. reflexivity.
Defined.

(** X11. In every state the engine reaches, the overall value the
    coordinator replies to a snapshot request is the severity rule over the
    stored Results: the published value never lags behind the store. *)
Theorem getOverallHealth_current (opts : Opts) (e : engine) :
  reachable opts e →
  handle (svc e) recv_getOverallHealth
  = (svc e, Some (reply_status (severity_rule (values (service.runResults (svc e))))))
  ∧ (service.runResults (svc e) = ∅ → service.overallHealth (svc e) = Green).
Proof.
  intros Hr. destruct (reachable_consistent opts e Hr) as (H0 & _).
  cbn. rewrite H0. unfold OverallHealth, OverallHealth_of.
  rewrite OverallHealth_range_severity. split; [done|]. by intros ->.
Qed.

Lemma getOverallHealth_current_witness :
  handle sample_registered recv_getOverallHealth
  = (sample_registered, Some (reply_status Green)).
Proof.
  destruct (getOverallHealth_current sample_opts _ reachable_sample_registered) as [H _].
  exact H.
Defined.

(** ** Who is sent a Result *)

Lemma elem_of_started_on_result (s : service) (result r : Result) (ch : chan) :
  go_send_Result ch r ∈ started s (on_result s result) ↔
  r = result
  ∧ ∃ f, service.subscriptionsForCheckResults s !! ch = Some f ∧ f result = true.
Proof.
  rewrite started_on_result, elem_of_app. split.
  - intros [Hin|Hin].
    + destruct (_ =? _)%Z; [by apply elem_of_nil in Hin|].
      unfold broadcast in Hin. by apply list_elem_of_fmap in Hin as (? & ? & _).
    + apply list_elem_of_fmap in Hin as ([ch' f] & Heq & Hin). cbn in Heq.
      injection Heq as -> ->. apply list_elem_of_filter in Hin as [Hf Hin].
      apply elem_of_map_to_list in Hin. eauto.
  - intros (-> & f & Hf & Hacc). right. apply list_elem_of_fmap.
    exists (ch, f). split; [done|]. apply list_elem_of_filter. split; [done|].
    by apply elem_of_map_to_list.
Qed.

(** X12. A Result the coordinator processes is sent to a result subscriber
    exactly when the filter of the subscription accepts it, the Result
    itself and no other, and to no channel twice. *)
Theorem publishResult_recipients (s : service) (result : Result) :
  (∀ ch r,
     go_send_Result ch r ∈ started s (on_result s result) ↔
     r = result
     ∧ ∃ f, service.subscriptionsForCheckResults s !! ch = Some f ∧ f result = true)
  ∧ NoDup (filter (λ g, is_send_Status g = false) (started s (on_result s result)))
  ∧ (service.subscriptionsForCheckResults s = ∅ →
     filter (λ g, is_send_Status g = false) (started s (on_result s result)) = []).
Proof.
  split; [intros ch r; apply elem_of_started_on_result|].
  rewrite started_on_result.
  set (pub := (λ sub : chan * (Result → bool), go_send_Result sub.1 result)
                <$> filter (λ sub, sub.2 result = true)
                      (map_to_list (service.subscriptionsForCheckResults s))).
  assert (Hb : ∀ l : list chan,
             filter (λ g, is_send_Status g = false)
               ((λ ch, go_send_Status ch
                         (OverallHealth_of
                            (<[Result.ID result := result]> (service.runResults s)))) <$> l)
             = []).
  { induction l as [|x l IH]; [done|].
    rewrite fmap_cons, filter_cons_False; [done|]. cbn. discriminate. }
  assert (Hp : filter (λ g, is_send_Status g = false) pub = pub).
  { unfold pub. induction (filter _ (map_to_list _)) as [|x l IH]; [done|].
    rewrite fmap_cons, filter_cons_True by done. by rewrite IH. }
  assert (Hf : filter (λ g, is_send_Status g = false)
                 ((if (service.overallHealth s
                       =? OverallHealth_of
                            (<[Result.ID result := result]> (service.runResults s)))%Z
                   then []
                   else broadcast s
                          (OverallHealth_of
                             (<[Result.ID result := result]> (service.runResults s))))
                  ++ pub) = pub).
  { rewrite filter_app, Hp. destruct (_ =? _)%Z; [done|]. unfold broadcast. by rewrite Hb. }
  rewrite Hf. split.
  - unfold pub. apply NoDup_fmap_2_strong.
    + intros [c1 f1] [c2 f2] H1 H2 Heq. cbn in Heq. injection Heq as ->.
      apply list_elem_of_filter in H1 as [_ H1]. apply list_elem_of_filter in H2 as [_ H2].
      apply elem_of_map_to_list in H1. apply elem_of_map_to_list in H2. congruence.
    + apply NoDup_filter, NoDup_map_to_list.
  - intros He. unfold pub. by rewrite He, map_to_list_empty.
Qed.

Lemma publishResult_recipients_witness :
  filter (λ g, is_send_Status g = false)
    (started (newService sample_opts)
       (on_result (newService sample_opts) (sample_result "db" Red))) = [].
Proof.
  destruct (publishResult_recipients (newService sample_opts) (sample_result "db" Red))
    as (_ & _ & H).
  apply H. reflexivity.
Defined.

(** ** Subscriptions last *)

Lemma results_subscription_handle (s : service) (ev : event) (ch : chan)
    (f : Result → bool) :
  consistent s →
  service.subscriptionsForCheckResults s !! ch = Some f →
  service.subscriptionsForCheckResults (handle s ev).1 !! ch = Some f.
Proof.
  intros (_ & _ & H2 & _) Hf. destruct ev; cbn -[on_result]; try done.
  - destruct (Register_cases s req) as [(_ & Hs & _)|(checker & _ & _ & _ & _ & Hs)];
      destruct (Register s req); cbn in Hs; by subst.
  - unfold on_result, publishResult, updateOverallHealth. cbn. by destruct (_ =? _)%Z.
  - rewrite lookup_insert_ne; [done|].
    assert (ch < service.made s) by (apply H2; by exists f). lia.
Qed.

Lemma results_subscription_acts (l : list action) (e e' : engine) (ch : chan)
    (f : Result → bool) :
  acts e l = Some e' → consistent (svc e) →
  service.subscriptionsForCheckResults (svc e) !! ch = Some f →
  service.subscriptionsForCheckResults (svc e') !! ch = Some f.
Proof.
  revert e. induction l as [|a l IH]; intros e; cbn.
  - by intros [= <-].
  - destruct (act e a) as [e1|] eqn:Ea; [|done]. cbn. intros Hl Hc Hf.
    apply (IH e1 Hl); [by apply (consistent_act e e1 a)|].
    apply act_cases in Ea as [(_ & -> & _)|[(_ & _ & _ & -> & _)|(ev & _ & _ & _ & -> & _)]].
    + by destruct (svc e).
    + done.
    + by apply results_subscription_handle.
Qed.

Lemma registration_subscriptions_handle (s : service) (ev : event) :
  service.subscriptionsForRegisteredChecks s
  ⊆ service.subscriptionsForRegisteredChecks (handle s ev).1.
Proof.
  destruct ev; cbn -[on_result]; try done.
  - destruct (Register_cases s req) as [(_ & Hs & _)|(checker & _ & _ & _ & _ & Hs)];
      destruct (Register s req); cbn in Hs; by subst.
  - unfold on_result, publishResult, updateOverallHealth. cbn. by destruct (_ =? _)%Z.
  - apply union_subseteq_r.
Qed.

Lemma registration_subscriptions_acts (l : list action) (e e' : engine) :
  acts e l = Some e' →
  service.subscriptionsForRegisteredChecks (svc e)
  ⊆ service.subscriptionsForRegisteredChecks (svc e').
Proof.
  revert e. induction l as [|a l IH]; intros e; cbn.
  - by intros [= <-].
  - destruct (act e a) as [e1|] eqn:Ea; [|done]. cbn. intros Hl.
    etrans; [|by apply IH].
    apply act_cases in Ea as [(_ & -> & _)|[(_ & _ & _ & -> & _)|(ev & _ & _ & _ & -> & _)]].
    + by destruct (svc e).
    + done.
    + apply registration_subscriptions_handle.
Qed.

(** X13. In every state the engine reaches, a subscription for check
    results gets a channel the service did not hold before and sends
    nothing at that moment; whatever the engine does afterwards, each Result
    the coordinator processes is sent to the channel exactly when the
    filter given accepts it, every Result when no filter was given. *)
Theorem SubscribeForCheckResults_delivers (opts : Opts) (e : engine)
    (filter : option (Result → bool)) :
  reachable opts e →
  let s := svc e in
  let ch := (SubscribeForCheckResults s filter).1 in
  let s' := (SubscribeForCheckResults s filter).2 in
  let accepts (r : Result) := match filter with Some f => f r | None => true end in
  handle s (recv_subscribeForCheckResults filter) = (s', Some (reply_chan ch))
  ∧ (service.subscriptionsForCheckResults s !! ch = None
     ∧ (ch ∉ service.subscriptionsForRegisteredChecks s)
     ∧ (ch ∉ service.subscriptionsForOverallHealthChanges s))
  ∧ started s s' = []
  ∧ (∀ l e', acts (continue e s' (Some (reply_chan ch))) l = Some e' →
       ∀ result r,
         go_send_Result ch r ∈ started (svc e') (on_result (svc e') result) ↔
         r = result ∧ accepts result = true).
Proof.
  intros Hr s ch s' accepts.
  pose proof (reachable_consistent opts e Hr) as Hc.
  pose proof Hc as (_ & H1 & H2 & H3 & _). fold s in H1, H2, H3.
  split; [done|]. split; [|split].
  - repeat split.
    + destruct (service.subscriptionsForCheckResults s !! ch) eqn:E; [|done].
      assert (ch < service.made s) by (apply H2; by eexists).
      unfold ch in *. cbn in *. lia.
    + intros H. apply H1 in H. unfold ch in *. cbn in *. lia.
    + intros H. apply H3 in H. unfold ch in *. cbn in *. lia.
  - unfold started, s'. cbn. apply drop_all.
  - intros l e' Hl result r.
    assert (Hf : service.subscriptionsForCheckResults (svc e') !! ch = Some accepts).
    { apply (results_subscription_acts l _ _ _ _ Hl).
      - unfold continue. cbn. by apply consistent_SubscribeForCheckResults.
      - unfold continue, s', ch. cbn. rewrite lookup_insert_eq. by destruct filter. }
    rewrite elem_of_started_on_result. split.
    + intros (-> & f & Hf' & Hacc). split; [done|]. congruence.
    + intros (-> & Hacc). eauto.
Qed.

Lemma SubscribeForCheckResults_delivers_witness :
  started (newService sample_opts) (SubscribeForCheckResults (newService sample_opts) None).2
  = [].
Proof.
  assert (Hreach : reachable sample_opts (start sample_opts)) by (by exists []).
  destruct (SubscribeForCheckResults_delivers sample_opts (start sample_opts) None Hreach)
    as (_ & _ & H & _).
  exact H.
Defined.

(** X14. In every state the engine reaches, a subscription for registered
    checks gets a channel the service did not hold before and is sent none
    of the checks registered so far; whatever the engine does afterwards,
    each check that [Register] accepts is sent to the channel. *)
Theorem SubscribeForRegisteredChecks_no_replay (opts : Opts) (e : engine) :
  reachable opts e →
  let s := svc e in
  let ch := (SubscribeForRegisteredChecks s).1 in
  let s' := (SubscribeForRegisteredChecks s).2 in
  handle s recv_subscribeForRegisteredChecks = (s', Some (reply_chan ch))
  ∧ ((ch ∉ service.subscriptionsForRegisteredChecks s)
     ∧ service.subscriptionsForCheckResults s !! ch = None
     ∧ (ch ∉ service.subscriptionsForOverallHealthChanges s))
  ∧ started s s' = []
  ∧ service.checks s' = service.checks s
  ∧ (∀ l e' req checker,
       acts (continue e s' (Some (reply_chan ch))) l = Some e' →
       req_checker req = Some checker →
       (Register (svc e') req).1 = None →
       go_send_RegisteredCheck ch (registeredCheck_of (svc e') req checker)
       ∈ started (svc e') (Register (svc e') req).2).
Proof.
  intros Hr s ch s'.
  pose proof (reachable_consistent opts e Hr) as (_ & H1 & H2 & H3 & _).
  fold s in H1, H2, H3.
  split; [done|]. split; [|split; [|split]].
  - repeat split.
    + intros H. apply H1 in H. unfold ch in *. cbn in *. lia.
    + destruct (service.subscriptionsForCheckResults s !! ch) eqn:E; [|done].
      assert (ch < service.made s) by (apply H2; by eexists).
      unfold ch in *. cbn in *. lia.
    + intros H. apply H3 in H. unfold ch in *. cbn in *. lia.
  - unfold started, s'. cbn. apply drop_all.
  - done.
  - intros l e' req checker Hl Hc Herr.
    assert (Hin : ch ∈ service.subscriptionsForRegisteredChecks (svc e')).
    { apply (registration_subscriptions_acts l _ _ Hl). unfold continue, s', ch. cbn.
      apply elem_of_union_l. by apply elem_of_singleton. }
    destruct (Register_cases (svc e') req)
      as [(Hne & _)|(checker' & Hc' & _ & _ & _ & Hs)]; [done|].
    rewrite Hc in Hc'. injection Hc' as <-. rewrite Hs.
    destruct (checks_Register_accepted (svc e') req checker) as (_ & _ & _ & _ & _ & _ & Hst).
    cbn zeta in Hst. rewrite Hst. apply list_elem_of_further, list_elem_of_fmap.
    exists ch. split; [done|]. by apply elem_of_elements.
Qed.

Lemma SubscribeForRegisteredChecks_no_replay_witness :
  started sample_registered (SubscribeForRegisteredChecks sample_registered).2 = [].
Proof.
  destruct (SubscribeForRegisteredChecks_no_replay sample_opts _ reachable_sample_registered)
    as (_ & _ & H & _).
  exact H.
Defined.

(** ** The run semaphore *)

Lemma fill_tokens (n : nat) (c : semaphore) :
  tokens c + n ≤ capacity c →
  fill n c = Some {| capacity := capacity c; tokens := tokens c + n |}.
Proof.
  revert c. induction n as [|n IH]; intros [cap t] H; cbn [fill tokens capacity] in *.
  - by rewrite Nat.add_0_r.
  - unfold sem_send. cbn [tokens capacity].
    destruct (Nat.ltb_spec t cap) as [Hlt|Hge]; [|lia].
    cbn [mbind option_bind]. rewrite IH by (cbn; lia). cbn [tokens capacity].
    do 2 f_equal. lia.
Qed.

Lemma newPool_full (opts : Opts) :
  newPool opts =
    Some {| sem := {| capacity := Z.to_nat (Opts.MaxCheckParallelism opts);
                      tokens := Z.to_nat (Opts.MaxCheckParallelism opts) |};
            running := [] |}.
Proof.
  unfold newPool, newSemaphore. by rewrite fill_tokens by (cbn; lia).
Qed.

Lemma length_remove_first (id : string) (l : list string) :
  id ∈ l → S (length (remove_first id l)) = length l.
Proof.
  induction l as [|x l IH]; intros Hin; [by apply elem_of_nil in Hin|]. cbn.
  destruct (String.eqb_spec x id) as [->|Hne]; [done|]. cbn.
  rewrite IH; [done|]. apply elem_of_cons in Hin as [->|Hin]; done.
Qed.

Lemma pool_step_balance (p p' : pool) (ev : run_event) :
  pool_step p ev = Some p' →
  capacity (sem p') = capacity (sem p)
  ∧ tokens (sem p') + length (running p') = tokens (sem p) + length (running p).
Proof.
  destruct p as [[cap t] run]. destruct ev as [id|id]; cbn.
  - unfold sem_recv. cbn. destruct t as [|t]; [done|]. cbn. intros [= <-]. cbn. lia.
  - case_bool_decide as Hin; [|done]. unfold sem_send. cbn [tokens capacity].
    destruct (t <? cap); [|done]. cbn. intros [= <-]. cbn.
    pose proof (length_remove_first id run Hin). lia.
Qed.

Lemma pool_steps_balance (l : list run_event) (p p' : pool) :
  pool_steps p l = Some p' →
  capacity (sem p') = capacity (sem p)
  ∧ tokens (sem p') + length (running p') = tokens (sem p) + length (running p).
Proof.
  revert p. induction l as [|ev l IH]; intros p; cbn.
  - by intros [= <-].
  - destruct (pool_step p ev) as [p1|] eqn:E; [|done]. cbn. intros Hl.
    destruct (IH p1 Hl) as [H1 H2]. destruct (pool_step_balance p p1 ev E) as [H3 H4].
    lia.
Qed.

(** X15. [newService] fills the semaphore without blocking, with as many
    values as [MaxCheckParallelism].  From then on, however the schedulers
    enter and leave [run], the values in the semaphore and the checks
    running add up to [MaxCheckParallelism]: no more checks than that run at
    once, a check can start exactly while fewer are running, a check that
    ends never blocks on giving its value back, and with a parallelism of
    zero no scheduled check ever starts. *)
Theorem runSemaphore_bounds (opts : Opts) (l : list run_event) (p : pool) :
  let max := Z.to_nat (Opts.MaxCheckParallelism opts) in
  ∃ p0, newPool opts = Some p0
        ∧ tokens (sem p0) = max ∧ capacity (sem p0) = max ∧ running p0 = []
        ∧ (pool_steps p0 l = Some p →
           tokens (sem p) + length (running p) = max
           ∧ length (running p) ≤ max
           ∧ (∀ id, is_Some (pool_step p (run_begin id)) ↔ length (running p) < max)
           ∧ (∀ id, id ∈ running p → is_Some (pool_step p (run_end id)))
           ∧ (max = 0 → l = [])).
Proof.
  intros max. eexists. split; [apply newPool_full|]. cbn. repeat split; try done.
  - apply pool_steps_balance in H as [_ H]. cbn in H. fold max in H. lia.
  - apply pool_steps_balance in H as [_ H]. cbn in H. fold max in H. lia.
  - apply pool_steps_balance in H as [_ H]. cbn in H. fold max in H.
    unfold sem_recv. destruct (tokens (sem p)); cbn; [by intros [? ?]|lia].
  - apply pool_steps_balance in H as [_ H]. cbn in H. fold max in H.
    intros Hlt. unfold sem_recv. destruct (tokens (sem p)) eqn:E; cbn; [lia|by eexists].
  - intros id Hin. apply pool_steps_balance in H as [Hcap H]. cbn in H, Hcap.
    fold max in H, Hcap. case_bool_decide; [|done]. unfold sem_send.
    assert (0 < length (running p)).
    { destruct (running p); [by apply elem_of_nil in Hin|cbn; lia]. }
    destruct (Nat.ltb_spec (tokens (sem p)) (capacity (sem p))); [by eexists|lia].
  - intros Hmax. destruct l as [|ev l]; [done|]. cbn in H.
    fold max in H. rewrite Hmax in H. by destruct ev.
Qed.

Lemma runSemaphore_bounds_witness :
  ¬ is_Some
      (pool_step {| sem := {| capacity := 2; tokens := 0 |}; running := ["cache"; "db"] |}
         (run_begin "queue")).
Proof.
  destruct (runSemaphore_bounds sample_opts [run_begin "db"; run_begin "cache"]
              {| sem := {| capacity := 2; tokens := 0 |}; running := ["cache"; "db"] |})
    as (p0 & Hp0 & _ & _ & _ & H).
  injection Hp0 as <-.
  destruct (H eq_refl) as (_ & _ & Hbegin & _).
  rewrite (Hbegin "queue"). cbn. lia.
Defined.

(** ** The readiness hook *)

Lemma Errors_of_Combine (errs : list error) :
  Errors_of (Combine errs) = concat (Errors_of <$> errs).
Proof.
  assert (H : concat (Errors_of <$> errs) = concat (Errors <$> omap id errs)).
  { induction errs as [|[e|] errs IH]; cbn; [done| |done]. by rewrite IH. }
  rewrite H. unfold Combine. destruct (omap id errs) as [|e [|e' es]]; cbn; [done| |done].
  by rewrite app_nil_r.
Qed.

Lemma Combine_None (errs : list error) :
  Combine errs = None ↔ Forall (λ e, e = None) errs.
Proof.
  unfold Combine. split.
  - intros H. induction errs as [|[e|] errs IH]; cbn in *.
    + apply Forall_nil_2.
    + by destruct (omap id errs) as [|? [|? ?]].
    + apply Forall_cons_2; [done|]. by apply IH.
  - intros H. induction H as [|e errs -> _ IH]; [done|]. cbn. exact IH.
Qed.

Lemma readiness_range_Errors (calls : list (RegisteredCheck * invocation)) (err : error) :
  Errors_of (readiness_range err calls) =
    Errors_of err
    ++ concat (readiness_errors
                 <$> filter
                       (λ c, Result.Status
                               (Checker_call (RegisteredCheck.Checker c.1) c.2).1 ≠ Green)
                       calls).
Proof.
  revert err. induction calls as [|[c i] calls IH]; intros err; cbn [readiness_range].
  - cbn. by rewrite app_nil_r.
  - destruct (Z.eqb_spec (Result.Status (Checker_call (RegisteredCheck.Checker c) i).1) Green)
      as [Hg|Hg].
    + rewrite filter_cons_False by (cbn; by intros ?). apply IH.
    + rewrite filter_cons_True by done. rewrite IH, Errors_of_Combine.
      cbn. rewrite app_nil_r. unfold readiness_errors. cbn.
      by rewrite <- !app_assoc.
Qed.

Lemma readiness_range_None (calls : list (RegisteredCheck * invocation)) (err : error) :
  readiness_range err calls = None ↔
  err = None
  ∧ ∀ c i, (c, i) ∈ calls →
           Result.Status (Checker_call (RegisteredCheck.Checker c) i).1 = Green.
Proof.
  revert err. induction calls as [|[c i] calls IH]; intros err; cbn [readiness_range].
  - split; [intros ->; split; [done|]; intros ? ? H; by apply elem_of_nil in H|by intros [-> _]].
  - destruct (Z.eqb_spec (Result.Status (Checker_call (RegisteredCheck.Checker c) i).1) Green)
      as [Hg|Hg]; rewrite IH.
    + split; intros [-> H]; (split; [done|]).
      * intros c' i' Hin. apply elem_of_cons in Hin as [[= -> ->]|Hin]; [done|by apply H].
      * intros c' i' Hin. apply H. by apply list_elem_of_further.
    + split.
      * intros [Hc _]. apply Combine_None in Hc. apply Forall_cons in Hc as [_ Hc].
        by apply Forall_cons in Hc as [Hc _].
      * intros [_ H]. destruct Hg. apply H, list_elem_of_here.
Qed.

(** X16. The readiness hook of the application calls each registered
    checker once and succeeds exactly when every Result is Green; otherwise
    its error reports, for each check that is not Green, that the check
    with this ID failed, followed by the errors of the Result, the failed
    checks in the order of the table. *)
Theorem healthCheckReadiness_fails_iff (calls : list (RegisteredCheck * invocation)) :
  (healthCheckReadiness calls = None ↔
     ∀ c i, (c, i) ∈ calls →
            Result.Status (Checker_call (RegisteredCheck.Checker c) i).1 = Green)
  ∧ Errors_of (healthCheckReadiness calls) =
      concat (readiness_errors
                <$> filter
                      (λ c, Result.Status
                              (Checker_call (RegisteredCheck.Checker c.1) c.2).1 ≠ Green)
                      calls)
  ∧ (∀ c i, (c, i) ∈ calls →
       Result.Status (Checker_call (RegisteredCheck.Checker c) i).1 ≠ Green →
       reports (healthCheckReadiness calls)
         (errors_New (String.append "health check failed: " (RegisteredCheck.ID c)))
       ∧ ∀ a, reports (Result.Err (Checker_call (RegisteredCheck.Checker c) i).1) a →
              reports (healthCheckReadiness calls) a).
Proof.
  unfold healthCheckReadiness.
  split; [|split].
  - rewrite readiness_range_None. split; [by intros [_ H]|by intros H].
  - by rewrite readiness_range_Errors.
  - intros c i Hin Hng.
    assert (Hsub : ∀ a, a ∈ readiness_errors (c, i) →
                        reports (readiness_range None calls) a).
    { intros a Ha.
      assert (Hl : a ∈ Errors_of (readiness_range None calls)).
      { rewrite readiness_range_Errors. cbn [Errors_of app].
        apply list_elem_of_In, in_concat.
        exists (readiness_errors (c, i)). split; [|by apply list_elem_of_In].
        apply list_elem_of_In, list_elem_of_fmap. exists (c, i). split; [done|].
        apply list_elem_of_filter. by split. }
      unfold reports. destruct (readiness_range None calls); [done|].
      by apply elem_of_nil in Hl. }
    split.
    + apply Hsub. apply list_elem_of_here.
    + intros a Ha. apply Hsub. unfold readiness_errors. cbn [fst snd].
      apply list_elem_of_further. unfold reports in Ha.
      by destruct (Result.Err _).
Qed.

Lemma healthCheckReadiness_fails_iff_witness :
  healthCheckReadiness
    [(registeredCheck_of (newService sample_opts)
        (sample_request "db" 0%Z 0%Z (Some (func 1))) (func 1),
      case_reply (sample_run Green None))]
  = None.
Proof.
  destruct (healthCheckReadiness_fails_iff
              [(registeredCheck_of (newService sample_opts)
                  (sample_request "db" 0%Z 0%Z (Some (func 1))) (func 1),
                case_reply (sample_run Green None))]) as ([_ H] & _).
  apply H. intros c i Hin. apply list_elem_of_singleton in Hin. by injection Hin as -> ->.
Defined.

(** ** Metrics *)

Lemma FindMetricFamilies_filter {MF : Type} (mfs : list (option MF))
    (accept : option MF → bool) :
  FindMetricFamilies mfs accept = List.filter accept mfs.
Proof. induction mfs as [|mf mfs IH]; cbn; [done|]. by rewrite IH. Qed.

(** X17. [FindMetricFamily] returns the first family of the list that the
    filter accepts, which is the head of what [FindMetricFamilies] returns,
    and nil when the filter accepts none; [FindMetricFamilies] returns the
    list with the families the filter rejects taken out: each accepted
    family, nil or not, as often as the list has it and at its place among
    the others. *)
Theorem FindMetricFamily_first {MF : Type} (mfs : list (option MF))
    (accept : option MF → bool) :
  FindMetricFamily mfs accept = default None (head (FindMetricFamilies mfs accept))
  ∧ (∀ mf, mf ∈ FindMetricFamilies mfs accept ↔ mf ∈ mfs ∧ accept mf = true)
  ∧ FindMetricFamilies mfs accept `sublist_of` mfs
  ∧ ((∀ mf, mf ∈ mfs → accept mf = false) →
     FindMetricFamily mfs accept = None ∧ FindMetricFamilies mfs accept = [])
  ∧ (∀ mf, FindMetricFamily mfs accept = Some mf →
       ∃ before after,
         mfs = before ++ Some mf :: after
         ∧ accept (Some mf) = true
         ∧ ∀ x, x ∈ before → accept x = false)
  ∧ FindMetricFamilies mfs accept = List.filter accept mfs
  ∧ (∀ before mf after,
       mfs = before ++ mf :: after →
       FindMetricFamilies mfs accept
       = FindMetricFamilies before accept
         ++ (if accept mf then [mf] else [])
         ++ FindMetricFamilies after accept).
Proof.
  split; [|split; [|split; [|split; [|split; [|split]]]]];
    [| | | | |apply FindMetricFamilies_filter|
     intros before mf after ->; rewrite !FindMetricFamilies_filter, List.filter_app; cbn;
     by destruct (accept mf)].
  - induction mfs as [|mf mfs IH]; cbn; [done|]. by destruct (accept mf).
  - intros mf. rewrite FindMetricFamilies_filter. apply elem_of_List_filter.
  - rewrite FindMetricFamilies_filter. apply List_filter_sublist.
  - intros Hnone. induction mfs as [|mf mfs IH]; cbn; [done|].
    rewrite (Hnone mf) by apply list_elem_of_here.
    apply IH. intros x Hx. apply Hnone. by apply list_elem_of_further.
  - induction mfs as [|x mfs IH]; cbn; [done|]. intros mf.
    destruct (accept x) eqn:Ex.
    + intros ->. exists [], mfs. split; [done|]. split; [done|].
      intros y Hy. by apply elem_of_nil in Hy.
    + intros Hf. destruct (IH mf Hf) as (before & after & -> & Hacc & Hb).
      exists (x :: before), after. split; [done|]. split; [done|].
      intros y Hy. apply elem_of_cons in Hy as [->|Hy]; [done|by apply Hb].
Qed.

Lemma FindMetricFamily_first_witness :
  FindMetricFamily [Some 1; None; Some 4; Some 6] (λ mf, bool_decide (mf = Some 3)) = None
  ∧ ∃ before after,
      [Some 1; None; Some 4; None; Some 6] = before ++ Some 4 :: after
      ∧ ∀ x, x ∈ before → from_option (λ n, bool_decide (3 < n)) false x = false.
Proof.
  destruct (FindMetricFamily_first [Some 1; None; Some 4; Some 6]
              (λ mf, bool_decide (mf = Some 3))) as (_ & _ & _ & Hnone & _).
  destruct (FindMetricFamily_first [Some 1; None; Some 4; None; Some 6]
              (from_option (λ n, bool_decide (3 < n)) false))
    as (_ & _ & _ & _ & Hfirst & _).
  split.
  - apply Hnone. intros mf Hin. apply bool_decide_eq_false.
    repeat (apply elem_of_cons in Hin as [->|Hin]; [discriminate|]).
    by apply elem_of_nil in Hin.
  - destruct (Hfirst 4 eq_refl) as (before & after & Heq & _ & Hb).
    by exists before, after.
Defined.

(** X18. The getters of the Prometheus server options never return a zero
    port, a zero read or write timeout or an empty endpoint: a field left
    at zero reads as 5050, one second, five seconds and "/metrics", which
    are also the settings of [NewPrometheusHTTPServerOpts].  A setter
    followed by its getter gives the value set unless it is zero;
    [SetEndpoint] stores its argument trimmed, so that the getter gives the
    trimmed argument, or "/metrics" when nothing is left of it.  Each of
    the five setters leaves what the four other getters return as it
    was. *)
Theorem PrometheusHTTPServerOpts_defaults (TrimSpace : string → string)
    (opts : PrometheusHTTPServerOpts.t) (p : N) (timeout : Duration) (e : string) (h : Z) :
  (PrometheusHTTPServerOpts.Port opts ≠ 0%N
   ∧ PrometheusHTTPServerOpts.ReadTimeout opts ≠ 0%Z
   ∧ PrometheusHTTPServerOpts.WriteTimeout opts ≠ 0%Z
   ∧ PrometheusHTTPServerOpts.Endpoint opts ≠ "")
  ∧ (PrometheusHTTPServerOpts.Port NewPrometheusHTTPServerOpts = 5050%N
     ∧ PrometheusHTTPServerOpts.ReadTimeout NewPrometheusHTTPServerOpts = 1000000000%Z
     ∧ PrometheusHTTPServerOpts.WriteTimeout NewPrometheusHTTPServerOpts = 5000000000%Z
     ∧ PrometheusHTTPServerOpts.Endpoint NewPrometheusHTTPServerOpts = "/metrics"
     ∧ PrometheusHTTPServerOpts.ErrorHandling NewPrometheusHTTPServerOpts = HTTPErrorOnError)
  ∧ (PrometheusHTTPServerOpts.Port (PrometheusHTTPServerOpts.SetPort opts p)
     = (if (p =? 0)%N then 5050%N else p)
     ∧ PrometheusHTTPServerOpts.ReadTimeout (PrometheusHTTPServerOpts.SetReadTimeout opts timeout)
       = (if (timeout =? 0)%Z then 1000000000%Z else timeout)
     ∧ PrometheusHTTPServerOpts.WriteTimeout
         (PrometheusHTTPServerOpts.SetWriteTimeout opts timeout)
       = (if (timeout =? 0)%Z then 5000000000%Z else timeout))
  ∧ (PrometheusHTTPServerOpts.ReadTimeout (PrometheusHTTPServerOpts.SetPort opts p)
     = PrometheusHTTPServerOpts.ReadTimeout opts
     ∧ PrometheusHTTPServerOpts.Port (PrometheusHTTPServerOpts.SetReadTimeout opts timeout)
       = PrometheusHTTPServerOpts.Port opts
     ∧ PrometheusHTTPServerOpts.Port (PrometheusHTTPServerOpts.SetWriteTimeout opts timeout)
       = PrometheusHTTPServerOpts.Port opts
     ∧ PrometheusHTTPServerOpts.Endpoint (PrometheusHTTPServerOpts.SetPort opts p)
       = PrometheusHTTPServerOpts.Endpoint opts)
  ∧ (PrometheusHTTPServerOpts.Endpoint (PrometheusHTTPServerOpts.SetEndpoint TrimSpace opts e)
     = (if String.eqb (TrimSpace e) "" then "/metrics" else TrimSpace e)
     ∧ PrometheusHTTPServerOpts.ErrorHandling
         (PrometheusHTTPServerOpts.SetErrorHandling opts h) = h)
  ∧ (PrometheusHTTPServerOpts.WriteTimeout (PrometheusHTTPServerOpts.SetPort opts p)
     = PrometheusHTTPServerOpts.WriteTimeout opts
     ∧ PrometheusHTTPServerOpts.ErrorHandling (PrometheusHTTPServerOpts.SetPort opts p)
       = PrometheusHTTPServerOpts.ErrorHandling opts)
  ∧ (PrometheusHTTPServerOpts.WriteTimeout
       (PrometheusHTTPServerOpts.SetReadTimeout opts timeout)
     = PrometheusHTTPServerOpts.WriteTimeout opts
     ∧ PrometheusHTTPServerOpts.Endpoint
         (PrometheusHTTPServerOpts.SetReadTimeout opts timeout)
       = PrometheusHTTPServerOpts.Endpoint opts
     ∧ PrometheusHTTPServerOpts.ErrorHandling
         (PrometheusHTTPServerOpts.SetReadTimeout opts timeout)
       = PrometheusHTTPServerOpts.ErrorHandling opts)
  ∧ (PrometheusHTTPServerOpts.ReadTimeout
       (PrometheusHTTPServerOpts.SetWriteTimeout opts timeout)
     = PrometheusHTTPServerOpts.ReadTimeout opts
     ∧ PrometheusHTTPServerOpts.Endpoint
         (PrometheusHTTPServerOpts.SetWriteTimeout opts timeout)
       = PrometheusHTTPServerOpts.Endpoint opts
     ∧ PrometheusHTTPServerOpts.ErrorHandling
         (PrometheusHTTPServerOpts.SetWriteTimeout opts timeout)
       = PrometheusHTTPServerOpts.ErrorHandling opts)
  ∧ (PrometheusHTTPServerOpts.Port (PrometheusHTTPServerOpts.SetEndpoint TrimSpace opts e)
     = PrometheusHTTPServerOpts.Port opts
     ∧ PrometheusHTTPServerOpts.ReadTimeout
         (PrometheusHTTPServerOpts.SetEndpoint TrimSpace opts e)
       = PrometheusHTTPServerOpts.ReadTimeout opts
     ∧ PrometheusHTTPServerOpts.WriteTimeout
         (PrometheusHTTPServerOpts.SetEndpoint TrimSpace opts e)
       = PrometheusHTTPServerOpts.WriteTimeout opts
     ∧ PrometheusHTTPServerOpts.ErrorHandling
         (PrometheusHTTPServerOpts.SetEndpoint TrimSpace opts e)
       = PrometheusHTTPServerOpts.ErrorHandling opts)
  ∧ (PrometheusHTTPServerOpts.Port (PrometheusHTTPServerOpts.SetErrorHandling opts h)
     = PrometheusHTTPServerOpts.Port opts
     ∧ PrometheusHTTPServerOpts.ReadTimeout (PrometheusHTTPServerOpts.SetErrorHandling opts h)
       = PrometheusHTTPServerOpts.ReadTimeout opts
     ∧ PrometheusHTTPServerOpts.WriteTimeout (PrometheusHTTPServerOpts.SetErrorHandling opts h)
       = PrometheusHTTPServerOpts.WriteTimeout opts
     ∧ PrometheusHTTPServerOpts.Endpoint (PrometheusHTTPServerOpts.SetErrorHandling opts h)
       = PrometheusHTTPServerOpts.Endpoint opts).
Proof.
  destruct opts as [port rt wt ep eh].
  unfold PrometheusHTTPServerOpts.Port, PrometheusHTTPServerOpts.ReadTimeout,
    PrometheusHTTPServerOpts.WriteTimeout, PrometheusHTTPServerOpts.Endpoint,
    PrometheusHTTPServerOpts.ErrorHandling.
  cbn [PrometheusHTTPServerOpts.port PrometheusHTTPServerOpts.readTimeout
         PrometheusHTTPServerOpts.writeTimeout PrometheusHTTPServerOpts.endpoint
         PrometheusHTTPServerOpts.errorHandling
         PrometheusHTTPServerOpts.SetPort PrometheusHTTPServerOpts.SetReadTimeout
         PrometheusHTTPServerOpts.SetWriteTimeout PrometheusHTTPServerOpts.SetEndpoint
         PrometheusHTTPServerOpts.SetErrorHandling].
  assert (H1 : int64_wrap (1 * second) = 1000000000%Z) by reflexivity.
  assert (H5 : int64_wrap (5 * second) = 5000000000%Z) by reflexivity.
  rewrite H1, H5.
  split.
  - repeat split.
    + by destruct (N.eqb_spec port 0).
    + by destruct (Z.eqb_spec rt 0).
    + by destruct (Z.eqb_spec wt 0).
    + by destruct (String.eqb_spec ep "").
  - by repeat split.
Qed.

(** ** The overall value and the Results that arrive *)

Lemma no_Status_in_registration_sends (c : RegisteredCheck) (l : list chan) :
  filter (λ g, is_send_Status g = true) ((λ ch, go_send_RegisteredCheck ch c) <$> l) = [].
Proof.
  induction l as [|x l IH]; [done|].
  rewrite fmap_cons, filter_cons_False by (cbn; discriminate). exact IH.
Qed.

Lemma no_results_handle (s : service) (ev : event) :
  is_recv_results (select_case ev) = false →
  service.runResults (handle s ev).1 = service.runResults s
  ∧ service.overallHealth (handle s ev).1 = service.overallHealth s
  ∧ filter (λ g, is_send_Status g = true) (started s (handle s ev).1) = [].
Proof.
  assert (Hnil : ∀ s0 : service, started s0 s0 = []) by (intros; apply drop_all).
  destruct ev; cbn [is_recv_results]; intros Hno; try discriminate Hno;
    cbn [handle].
  - by rewrite Hnil.
  - destruct (Register_cases s req) as [(_ & Hs & _)|(checker & _ & _ & _ & _ & Hs)];
      destruct (Register s req) as [err s1]; cbn [fst snd] in *; subst s1.
    + by rewrite Hnil.
    + destruct (checks_Register_accepted s req checker) as (_ & _ & H1 & _ & _ & _ & H2).
      cbn zeta in H1, H2. rewrite H2. split; [done|]. split; [done|].
      rewrite filter_cons_False by (cbn; discriminate).
      apply no_Status_in_registration_sends.
  - by rewrite Hnil.
  - by rewrite Hnil.
  - cbn. unfold started. cbn. by rewrite drop_all.
  - cbn. unfold started. cbn. by rewrite drop_all.
  - by rewrite Hnil.
  - cbn. unfold started. cbn. by rewrite drop_all.
Qed.

(** X19. Until the coordinator has taken a first Result, the store is empty
    and the overall value is Green, however many checks have been
    registered and whoever has subscribed: a check counts for the overall
    value only once one of its runs has reported. *)
Theorem Green_until_first_result (opts : Opts) (l : list action) (e : engine) :
  acts (start opts) l = Some e →
  existsb is_recv_results l = false →
  service.runResults (svc e) = ∅
  ∧ service.overallHealth (svc e) = Green
  ∧ SendCheckResults (svc e) None = []
  ∧ handle (svc e) recv_getOverallHealth = (svc e, Some (reply_status Green)).
Proof.
  intros Hl Hno.
  assert (H : service.runResults (svc e) = service.runResults (svc (start opts))
              ∧ service.overallHealth (svc e) = service.overallHealth (svc (start opts))).
  { revert Hl Hno. generalize (start opts). induction l as [|a l IH]; intros e0; cbn.
    - by intros [= <-].
    - destruct (act e0 a) as [e1|] eqn:Ea; [|done]. cbn. intros Hl Hno.
      apply orb_false_iff in Hno as [Ha Hno].
      destruct (IH e1 Hl Hno) as [-> ->].
      apply act_cases in Ea as [(_ & -> & _)|[(_ & _ & _ & -> & _)|(ev & -> & _ & _ & -> & _)]].
      + by destruct (svc e0).
      + done.
      + by destruct (no_results_handle (svc e0) ev Ha) as (-> & -> & _). }
  destruct H as [Hr Ho]. cbn in Hr, Ho.
  split; [done|]. split; [done|]. split.
  - unfold SendCheckResults, values. by rewrite Hr, map_to_list_empty.
  - cbn. by rewrite Ho.
Qed.

Lemma Green_until_first_result_witness :
  service.overallHealth sample_registered = Green.
Proof.
  destruct (Green_until_first_result sample_opts
              [select_case (recv_register (sample_request "db" 0%Z 0%Z (Some (func 1))))]
              {| svc := sample_registered; loop := Running; replies := [reply_error None] |}
              eq_refl eq_refl) as (_ & H & _).
  exact H.
Defined.

Lemma OverallHealth_of_insert (m : gmap string Result) (result : Result) :
  OverallHealth_of (<[Result.ID result := result]> m) =
    if (Result.Status result =? Red)%Z then Red
    else if has_status Red (values (delete (Result.ID result) m)) then Red
    else if (Result.Status result =? Yellow)%Z then Yellow
    else if has_status Yellow (values (delete (Result.ID result) m)) then Yellow
    else Green.
Proof.
  unfold OverallHealth_of. rewrite OverallHealth_range_rule.
  assert (Hp : values (<[Result.ID result := result]> m)
               ≡ₚ result :: values (delete (Result.ID result) m)).
  { unfold values. rewrite <- insert_delete_eq.
    rewrite map_to_list_insert by apply lookup_delete_eq. done. }
  rewrite (has_status_Permutation Red _ _ Hp), (has_status_Permutation Yellow _ _ Hp).
  cbn [has_status existsb]. fold (has_status Red (values (delete (Result.ID result) m))).
  fold (has_status Yellow (values (delete (Result.ID result) m))).
  destruct (Z.eqb_spec (Result.Status result) Red) as [Hr|Hr]; [done|]. cbn.
  destruct (has_status Red _); [done|].
  by destruct (Result.Status result =? Yellow)%Z.
Qed.

(** X20. A Red Result makes the overall value Red whatever else is stored,
    and a Yellow one makes it Yellow unless a Result stored for another
    check is Red.  So when the checker of a registered check times out and
    the coordinator takes its Result, the overall value is Red, and each
    overall-health subscriber is sent Red if the value was not Red
    before. *)
Theorem Red_result_turns_overall_Red (s : service) (result : Result) :
  (Result.Status result = Red → service.overallHealth (on_result s result) = Red)
  ∧ (Result.Status result = Yellow →
     service.overallHealth (on_result s result)
     = if has_status Red (values (delete (Result.ID result) (service.runResults s)))
       then Red else Yellow)
  ∧ (∀ c now late,
       result = (Checker_call c (case_timer now late)).1 →
       service.overallHealth (on_result s result) = Red
       ∧ (service.overallHealth s ≠ Red →
          ∀ ch, ch ∈ service.subscriptionsForOverallHealthChanges s →
                go_send_Status ch Red ∈ started s (on_result s result))).
Proof.
  rewrite overallHealth_on_result, OverallHealth_of_insert.
  split; [|split].
  - by intros ->.
  - intros ->. cbn. by destruct (has_status Red _).
  - intros c now late Hres.
    assert (HR : Result.Status result = Red) by (by rewrite Hres).
    rewrite HR. cbn. split; [done|]. intros Hne ch Hch.
    assert (Ho : service.overallHealth (on_result s result) = Red).
    { by rewrite overallHealth_on_result, OverallHealth_of_insert, HR. }
    rewrite <- Ho. apply on_result_sends_change; [done|]. by rewrite Ho.
Qed.

Lemma Red_result_turns_overall_Red_witness :
  service.overallHealth
    (on_result sample_registered (Checker_call sample_checker (case_timer 0%Z None)).1)
  = Red.
Proof.
  destruct (Red_result_turns_overall_Red sample_registered
              (Checker_call sample_checker (case_timer 0%Z None)).1) as (_ & _ & H).
  destruct (H sample_checker 0%Z None eq_refl) as [Hred _].
  exact Hred.
Defined.
